(** * MqttPubSubClient: a shallow embedding and its properties

    Source: [sdk/src/sdk/pubsub/MqttPubSubClient.cpp], the adapter of the
    SDK's [IPubSubClient] interface over a Paho [mqtt::async_client].

    The adapter is stateful and most of its methods can be left by an
    exception, so the methods are written in a state-and-exception monad
    [M].  Everything the adapter does not implement itself (the broker
    client, tokens, futures, the logger, the worker pool and the
    subscription handles) is an external collaborator: the calls made on a
    collaborator are recorded in the state, and what a collaborator answers
    is an argument of the method that asks. *)

From Stdlib Require Import ZArith Lia Ascii String.
From stdpp Require Import base option list gmap strings.

Open Scope string_scope.

(** ** Exceptions *)

(** The handlers of the file tell [mqtt::exception] (which derives from
    [std::runtime_error]) from the rest of the [std::exception] hierarchy.
    No handler is a catch-all, so a thrown object of a type outside that
    hierarchy is caught nowhere. *)
Inductive exn : Type :=
  | MqttException (rc : Z)
  | StdException (what : string)
  | ForeignException.

Definition is_mqtt_exception (e : exn) : bool :=
  match e with MqttException _ => true | _ => false end.

Definition is_std_exception (e : exn) : bool :=
  match e with MqttException _ | StdException _ => true | ForeignException => false end.

(** [MQTTASYNC_FAILURE] of the Paho C client. *)
Definition MQTTASYNC_FAILURE : Z := (-1)%Z.

Inductive outcome (A : Type) : Type :=
  | Normal (a : A)
  | Raised (e : exn).
Arguments Normal {A} a.
Arguments Raised {A} e.

Definition returns_normally {A} (o : outcome A) : Prop :=
  match o with Normal _ => True | Raised _ => False end.

(** ** Data of the adapter and of its collaborators *)

(** [PublishStatus] of [sdk/IPubSubClient.h]. *)
Inductive PublishStatus : Type := Success | Timeout | Failure.

(** The part of [mqtt::ssl_options] that the mutual-TLS constructor sets.
    [error_handler] tells that the handler logging "SSL Error: {}" is
    installed. *)
Record ssl_options : Type := {
  trust_store : string;
  key_store : string;
  private_key : string;
  error_handler : bool }.

(** The part of [mqtt::connect_options] that the constructors set; a field
    left alone keeps the library's default, here [None]. *)
Record connect_options : Type := {
  user_name : option string;
  password : option string;
  ssl : option ssl_options }.

(** A token of the broker client: what [wait()] and [wait_for(ms)] answer.
    [wait_for] answers [false] when the bound expires first. *)
Record token : Type := {
  wait : outcome unit;
  wait_for : Z → outcome bool }.

(** Calls made on the collaborators, in the order they are made. *)
Inductive call : Type :=
  | c_set_callback
  | c_connect (opts : connect_options)
  | c_reconnect
  | c_disconnect
  | c_is_connected
  | c_publish (topic data : string)
  | c_subscribe (topic : string) (qos : Z)
  | c_unsubscribe (topic : string)
  | c_token_wait
  | c_token_wait_for (ms : Z)
  | c_async
  | c_future_wait_for (ms : Z)
  | c_future_get.

Inductive level : Type := L_debug | L_info | L_warn | L_error.

Inductive fmt_arg : Type :=
  | ArgInt (z : Z)
  | ArgStr (s : string)
  | ArgWhat (e : exn).

(** A format string with its arguments, as given to the logger and to
    [fmt::format]. *)
Record formatted : Type := { fmt : string; args : list fmt_arg }.

Record log_entry : Type := { lvl : level; msg : formatted }.

(** A shared pointer to an [AsyncSubscription<std::string>]: its address. *)
Definition subscription_ptr : Type := nat.

Record Status : Type := { errorMessage : formatted }.

(** Modelled from the spec: [AsyncSubscription] of [sdk/AsyncResult.h] is not
    in the source file; the specification says that a subscription is a
    handle that "receives either a payload or an error".  A handle is the
    list of what it has received, oldest first. *)
Inductive notification : Type :=
  | Item (payload : string)
  | Failed (status : Status).

(** The closure that [message_arrived] hands to the worker pool captures the
    subscription pointer and a copy of the payload. *)
Record Job : Type := { job_subscription : subscription_ptr; job_payload : string }.

(** The adapter ([m_client], [m_connectOptions], [m_subscriberMap]) and the
    world around it.  [m_subscriberMap] is a [std::unordered_multimap]: each
    key holds the bucket of the records with that key. *)
Record state : Type := {
  server_uri : string;
  client_id : string;
  m_connectOptions : connect_options;
  m_subscriberMap : gmap string (list subscription_ptr);
  calls : list call;
  log : list log_entry;
  heap : list (list notification);
  pool : list Job }.

(** ** The monad *)

Definition M (A : Type) : Type := state → outcome A * state.

Definition ret {A} (a : A) : M A := λ st, (Normal a, st).

Definition bind {A B} (m : M A) (k : A → M B) : M B :=
  λ st, match m st with
        | (Normal a, st') => k a st'
        | (Raised e, st') => (Raised e, st')
        end.

Definition throw {A} (e : exn) : M A := λ st, (Raised e, st).

Definition get_state : M state := λ st, (Normal st, st).

Definition modify (f : state → state) : M unit := λ st, (Normal tt, f st).

Declare Scope cxx_scope.
Delimit Scope cxx_scope with cxx.
Notation "x <- m ;; k" := (bind m (λ x, k))
  (at level 100, m at next level, right associativity) : cxx_scope.
Notation "m ;; k" := (bind m (λ _, k))
  (at level 100, right associativity) : cxx_scope.
Open Scope cxx_scope.

(** A handler: the class it catches and its body. *)
Definition handler (A : Type) : Type := (exn → bool) * (exn → M A).

Fixpoint select_handler {A} (hs : list (handler A)) (e : exn) : option (exn → M A) :=
  match hs with
  | [] => None
  | (catches, body) :: hs' => if catches e then Some body else select_handler hs' e
  end.

(** [try { body } catch (C1& ex) { .. } catch (C2& ex) { .. }]: the first
    handler whose class matches runs; with none the exception goes on. *)
Definition try_catch {A} (body : M A) (hs : list (handler A)) : M A :=
  λ st, match body st with
        | (Normal a, st') => (Normal a, st')
        | (Raised e, st') =>
            match select_handler hs e with
            | Some h => h e st'
            | None => (Raised e, st')
            end
        end.

(** ** Collaborators *)

Definition set_calls (cs : list call) (st : state) : state :=
  {| server_uri := server_uri st; client_id := client_id st;
     m_connectOptions := m_connectOptions st;
     m_subscriberMap := m_subscriberMap st;
     calls := cs; log := log st; heap := heap st; pool := pool st |}.

Definition set_log (l : list log_entry) (st : state) : state :=
  {| server_uri := server_uri st; client_id := client_id st;
     m_connectOptions := m_connectOptions st;
     m_subscriberMap := m_subscriberMap st;
     calls := calls st; log := l; heap := heap st; pool := pool st |}.

Definition set_subscriberMap (m : gmap string (list subscription_ptr)) (st : state) : state :=
  {| server_uri := server_uri st; client_id := client_id st;
     m_connectOptions := m_connectOptions st;
     m_subscriberMap := m;
     calls := calls st; log := log st; heap := heap st; pool := pool st |}.

Definition set_heap (h : list (list notification)) (st : state) : state :=
  {| server_uri := server_uri st; client_id := client_id st;
     m_connectOptions := m_connectOptions st;
     m_subscriberMap := m_subscriberMap st;
     calls := calls st; log := log st; heap := h; pool := pool st |}.

Definition set_pool (p : list Job) (st : state) : state :=
  {| server_uri := server_uri st; client_id := client_id st;
     m_connectOptions := m_connectOptions st;
     m_subscriberMap := m_subscriberMap st;
     calls := calls st; log := log st; heap := heap st; pool := p |}.

(** A call on a collaborator: it is recorded, then the collaborator's answer
    is returned or thrown. *)
Definition ask {A} (c : call) (answer : outcome A) : M A :=
  λ st, (answer, set_calls (calls st ++ [c])%list st).

Definition logger (l : level) (f : string) (a : list fmt_arg) : M unit :=
  modify (λ st, set_log (log st ++ [{| lvl := l; msg := {| fmt := f; args := a |} |}])%list st).

Definition token_wait (tok : token) : M unit := ask c_token_wait (wait tok).

Definition token_wait_for (tok : token) (ms : Z) : M bool :=
  ask (c_token_wait_for ms) (wait_for tok ms).

(** The double quote of the raw string literals. *)
Definition dq : string := String "034"%char EmptyString.

(** [constexpr int MAX_TIMEOUT_MS = 30000], local to [reconnect] and to the
    timed publish.  A timeout is an [int] that is only compared and logged,
    so it is an integer here, without a range. *)
Definition MAX_TIMEOUT_MS : Z := 30000%Z.

(** ** [reconnect] *)

Definition reconnect (timeout_ms : Z) (reconnect_answer : outcome token) : M unit :=
  logger L_info "Attempting to reconnect to MQTT broker" [] ;;
  if (timeout_ms <=? 0)%Z then
    logger L_error "Invalid timeout value: {} ms. Must be positive." [ArgInt timeout_ms]
  else
    timeout_ms <- (if (timeout_ms >? MAX_TIMEOUT_MS)%Z then
                     logger L_warn "Timeout capped to {} ms (requested: {} ms)"
                       [ArgInt MAX_TIMEOUT_MS; ArgInt timeout_ms] ;;
                     ret MAX_TIMEOUT_MS
                   else ret timeout_ms) ;;
    try_catch
      (tok <- ask c_reconnect reconnect_answer ;;
       completed <- token_wait_for tok timeout_ms ;;
       if negb completed then
         logger L_error "MQTT reconnect timed out after {} ms" [ArgInt timeout_ms]
       else
         logger L_info "Successfully reconnected to MQTT broker." [])
      [(is_mqtt_exception,
        λ ex, logger L_error "MQTT reconnect failed: {}" [ArgWhat ex])].

(** ** Construction *)

Definition default_connect_options : connect_options :=
  {| user_name := None; password := None; ssl := None |}.

(** [mqtt::connect_options{username, password}]. *)
Definition connect_options_with_credentials (username pwd : string) : connect_options :=
  {| user_name := Some username; password := Some pwd; ssl := None |}.

(** [mqtt::connect_options_builder().user_name(name)] and [.ssl(opts)]. *)
Definition builder_user_name (name : string) (o : connect_options) : connect_options :=
  {| user_name := Some name; password := password o; ssl := ssl o |}.

Definition builder_ssl (s : ssl_options) (o : connect_options) : connect_options :=
  {| user_name := user_name o; password := password o; ssl := Some s |}.

(** What the constructors share: [m_client{brokerUri, clientId}] and
    [m_client.set_callback( *this )], around an empty subscriber map. *)
Definition new_client (brokerUri clientId : string) (o : connect_options) : state :=
  {| server_uri := brokerUri; client_id := clientId;
     m_connectOptions := o;
     m_subscriberMap := ∅;
     calls := [c_set_callback]; log := []; heap := []; pool := [] |}.

Definition MqttPubSubClient_plain (brokerUri clientId : string) : state :=
  new_client brokerUri clientId default_connect_options.

Definition MqttPubSubClient_credentials (brokerUri clientId username pwd : string) : state :=
  new_client brokerUri clientId (connect_options_with_credentials username pwd).

Definition MqttPubSubClient_token (brokerUri clientId tok : string) : state :=
  new_client brokerUri clientId (builder_user_name tok default_connect_options).

Definition MqttPubSubClient_tls
    (brokerUri clientId trustStorePath keyStorePath privateKeyPath : string) : state :=
  let sslopts := {| trust_store := trustStorePath; key_store := keyStorePath;
                    private_key := privateKeyPath; error_handler := true |} in
  new_client brokerUri clientId (builder_ssl sslopts default_connect_options).

(** The four overloads of the constructor, with the arguments that are not
    the broker URI and the client identifier. *)
Inductive constructor : Type :=
  | Plain
  | Credentials (username pwd : string)
  | Token (tok : string)
  | MutualTls (trustStorePath keyStorePath privateKeyPath : string).

Definition construct (brokerUri clientId : string) (c : constructor) : state :=
  match c with
  | Plain => MqttPubSubClient_plain brokerUri clientId
  | Credentials u p => MqttPubSubClient_credentials brokerUri clientId u p
  | Token t => MqttPubSubClient_token brokerUri clientId t
  | MutualTls ts ks pk => MqttPubSubClient_tls brokerUri clientId ts ks pk
  end.

(** ** [connect], [disconnect], [isConnected] *)

Definition connect (env_MQTT_BROKER_URI : option string) (connect_answer : outcome token) : M unit :=
  st <- get_state ;;
  logger L_info "Connecting to MQTT broker at '{}' with client-id '{}'"
    [ArgStr (server_uri st); ArgStr (client_id st)] ;;
  (if env_MQTT_BROKER_URI is Some _ then
     logger L_warn
       ("... ignoring deprecated environment variable MQTT_BROKER_URI -> "
        ++ "consider to remove it") []
   else ret tt) ;;
  tok <- ask (c_connect (m_connectOptions st)) connect_answer ;;
  token_wait tok.

Definition disconnect (disconnect_answer : outcome token) : M unit :=
  tok <- ask c_disconnect disconnect_answer ;;
  token_wait tok.

Definition isConnected (connected : bool) : M bool :=
  ask c_is_connected (Normal connected).

(** ** [publishOnTopic] *)

Definition publish_message : string :=
  "Publish on topic " ++ dq ++ "{}" ++ dq ++ ": " ++ dq ++ "{}" ++ dq.

Definition publishOnTopic (topic data : string) (publish_answer : outcome token) : M unit :=
  logger L_debug publish_message [ArgStr topic; ArgStr data] ;;
  tok <- ask (c_publish topic data) publish_answer ;;
  token_wait tok.

(** A [std::future]: whether its result is ready within a number of
    milliseconds, and the result, a value or a stored exception. *)
Record future (A : Type) : Type := {
  ready_within : Z → bool;
  stored : outcome A }.
Arguments ready_within {A} f ms.
Arguments stored {A} f.

(** What the world answers during a timed publish: [std::async] starts the
    task or throws, [m_client.publish] in the task returns a token pointer
    (possibly null) or throws, and the task's result is ready within a given
    time or not.  The task always ends: the broker client completes every
    token. *)
Record async_answers : Type := {
  launch : outcome unit;
  task_publish : outcome (option token);
  task_ready_within : Z → bool }.

(** The body of the lambda given to [std::async]. *)
Definition publish_task (topic data : string) (publish_answer : outcome (option token))
  : M PublishStatus :=
  tok <- ask (c_publish topic data) publish_answer ;;
  match tok with
  | None => throw (MqttException MQTTASYNC_FAILURE)
  | Some tok => token_wait tok ;; ret Success
  end.

(** [std::async(std::launch::async, task)].  An exception that leaves the
    task is stored in the future.  The task runs beside the caller; its calls
    are recorded when it is started, and it has made them all when the method
    returns, since the future of [std::async] joins its task when it is
    destroyed. *)
Definition std_async {A} (launch_answer : outcome unit) (ready : Z → bool) (task : M A)
  : M (future A) :=
  ask c_async launch_answer ;;
  (λ st, let '(r, st') := task st in
         (Normal {| ready_within := ready; stored := r |}, st')).

(** [future.wait_for(ms) == std::future_status::ready]. *)
Definition future_wait_for {A} (f : future A) (ms : Z) : M bool :=
  ask (c_future_wait_for ms) (Normal (ready_within f ms)).

Definition future_get {A} (f : future A) : M A := ask c_future_get (stored f).

Definition publishOnTopic_timed (topic data : string) (timeout_ms : Z) (w : async_answers)
  : M PublishStatus :=
  if (timeout_ms <=? 0)%Z then
    logger L_warn "Invalid timeout value ({} ms); must be > 0" [ArgInt timeout_ms] ;;
    ret Timeout
  else
    timeout_ms <- (if (timeout_ms >? MAX_TIMEOUT_MS)%Z then
                     logger L_warn "Timeout capped to {} ms (requested: {} ms)"
                       [ArgInt MAX_TIMEOUT_MS; ArgInt timeout_ms] ;;
                     ret MAX_TIMEOUT_MS
                   else ret timeout_ms) ;;
    try_catch
      (logger L_debug publish_message [ArgStr topic; ArgStr data] ;;
       fut <- std_async (launch w) (task_ready_within w)
                (publish_task topic data (task_publish w)) ;;
       ready <- future_wait_for fut timeout_ms ;;
       if ready then future_get fut
       else (logger L_warn "Publish timed out after {} ms" [ArgInt timeout_ms] ;;
             ret Timeout))
      [(is_mqtt_exception,
        λ ex, logger L_error "MQTT publish failed: {}" [ArgWhat ex] ;; ret Failure);
       (is_std_exception,
        λ ex, logger L_error "Unexpected exception during publish: {}" [ArgWhat ex] ;;
              ret Failure)].

(** ** The subscriber map *)

Module TopicMap.

(** [equal_range(topic)]: the records with exactly that key. *)
Definition equal_range (topic : string) (m : gmap string (list subscription_ptr))
  : list subscription_ptr :=
  default [] (m !! topic).

(** [insert(std::make_pair(topic, subscription))].  The container leaves
    open where the new record goes among those of equal key, and keeps the
    order of the others: [place] is the container's choice, the number of
    records of the range that come before the new one (libstdc++ puts it
    right after the first). *)
Definition insert (topic : string) (s : subscription_ptr) (place : nat)
    (m : gmap string (list subscription_ptr)) : gmap string (list subscription_ptr) :=
  <[topic := (take place (equal_range topic m) ++ s :: drop place (equal_range topic m))%list]> m.

(** [erase(range.first, range.second)] for the range of [topic]. *)
Definition erase_range (topic : string) (m : gmap string (list subscription_ptr))
  : gmap string (list subscription_ptr) :=
  delete topic m.

(** The map holds the record (topic, subscription). *)
Definition has_record (topic : string) (s : subscription_ptr)
    (m : gmap string (list subscription_ptr)) : Prop :=
  s ∈ equal_range topic m.

End TopicMap.

(** ** [subscribeTopic], [unsubscribeTopic] *)

(** [std::make_shared<AsyncSubscription<std::string>>()]: a new handle that
    has received nothing, at a new address. *)
Definition make_shared_subscription : M subscription_ptr :=
  λ st, (Normal (length (heap st)), set_heap (heap st ++ [[]])%list st).

(** [place] is where the container puts the new record among those of the
    topic, see [TopicMap.insert]. *)
Definition subscribeTopic (topic : string) (place : nat) (subscribe_answer : outcome token)
  : M subscription_ptr :=
  logger L_debug "Subscribing to {}" [ArgStr topic] ;;
  subscription <- make_shared_subscription ;;
  modify (λ st, set_subscriberMap
                  (TopicMap.insert topic subscription place (m_subscriberMap st)) st) ;;
  tok <- ask (c_subscribe topic 0) subscribe_answer ;;
  token_wait tok ;;
  ret subscription.

Definition unsubscribeTopic (topic : string) (unsubscribe_answer : outcome token) : M unit :=
  logger L_debug "Unsubscribing from {}" [ArgStr topic] ;;
  tok <- ask (c_unsubscribe topic) unsubscribe_answer ;;
  token_wait tok ;;
  modify (λ st, set_subscriberMap (TopicMap.erase_range topic (m_subscriberMap st)) st).

(** ** [message_arrived] and the delivery jobs *)

Record message : Type := { get_topic : string; get_payload_str : string }.

(** The state in which the handle at address [s] has received [n] after
    whatever it had received before. *)
Definition received_in (s : subscription_ptr) (n : notification) (st : state) : state :=
  set_heap (alter (λ received, (received ++ [n])%list) s (heap st)) st.

(** A handle receives a notification.  A pointer held by the map or by a job
    keeps its handle alive, so the address is always in range. *)
Definition receive (s : subscription_ptr) (n : notification) : M unit :=
  modify (received_in s n).

(** Modelled from the spec: [insertNewItem] hands the payload to the handle;
    it can be left by an exception of the subscriber's callback, and then the
    handle has not received the payload. *)
Definition insertNewItem (s : subscription_ptr) (item : string) (callback : outcome unit)
  : M unit :=
  match callback with
  | Normal _ => receive s (Item item)
  | Raised e => throw e
  end.

(** Modelled from the spec: [insertError] hands the error to the handle. *)
Definition insertError (s : subscription_ptr) (error : Status) : M unit :=
  receive s (Failed error).

(** The body of the lambda wrapped by [Job::create]. *)
Definition run_job (j : Job) (callback : outcome unit) : M unit :=
  try_catch
    (insertNewItem (job_subscription j) (job_payload j) callback)
    [(is_std_exception,
      λ e, insertError (job_subscription j)
             {| errorMessage :=
                  {| fmt := "MQTT: Callback threw an exception on update: {}";
                     args := [ArgWhat e] |} |})].

(** The delivery job of a subscription for a payload. *)
Definition job_for (payload : string) (s : subscription_ptr) : Job :=
  {| job_subscription := s; job_payload := payload |}.

(** [ThreadPool::getInstance()->enqueue(job)]. *)
Definition enqueue (j : Job) : M unit :=
  modify (λ st, set_pool (pool st ++ [j])%list st).

Fixpoint for_each {A} (l : list A) (body : A → M unit) : M unit :=
  match l with
  | [] => ret tt
  | x :: l' => body x ;; for_each l' body
  end.

Definition message_arrived (msg : message) : M unit :=
  let topic := get_topic msg in
  let payload := get_payload_str msg in
  logger L_debug ("MQTT: Update on topic " ++ dq ++ "{}" ++ dq ++ ": " ++ dq ++ "{}" ++ dq)
    [ArgStr topic; ArgStr payload] ;;
  st <- get_state ;;
  for_each (TopicMap.equal_range topic (m_subscriberMap st))
    (λ subscription, enqueue (job_for payload subscription)).

(** A worker of the pool takes the oldest job and runs it. *)
Definition worker_step (callback : outcome unit) : M unit :=
  st <- get_state ;;
  match pool st with
  | [] => ret tt
  | j :: rest => modify (set_pool rest) ;; run_job j callback
  end.

(** ** Sequences of operations *)

(** Everything that can happen to a client once it is constructed, with the
    answers of the world. *)
Inductive operation : Type :=
  | op_connect (env_MQTT_BROKER_URI : option string) (answer : outcome token)
  | op_reconnect (timeout_ms : Z) (answer : outcome token)
  | op_disconnect (answer : outcome token)
  | op_isConnected (connected : bool)
  | op_publish (topic data : string) (answer : outcome token)
  | op_publish_timed (topic data : string) (timeout_ms : Z) (w : async_answers)
  | op_subscribe (topic : string) (place : nat) (answer : outcome token)
  | op_unsubscribe (topic : string) (answer : outcome token)
  | op_message_arrived (msg : message)
  | op_deliver (callback : outcome unit).

(** The state an operation leaves, whether it returns or throws. *)
Definition perform (op : operation) (st : state) : state :=
  match op with
  | op_connect v a => snd (connect v a st)
  | op_reconnect t a => snd (reconnect t a st)
  | op_disconnect a => snd (disconnect a st)
  | op_isConnected b => snd (isConnected b st)
  | op_publish topic data a => snd (publishOnTopic topic data a st)
  | op_publish_timed topic data t w => snd (publishOnTopic_timed topic data t w st)
  | op_subscribe topic place a => snd (subscribeTopic topic place a st)
  | op_unsubscribe topic a => snd (unsubscribeTopic topic a st)
  | op_message_arrived msg => snd (message_arrived msg st)
  | op_deliver cb => snd (worker_step cb st)
  end.

Definition perform_all (ops : list operation) (st : state) : state :=
  fold_left (λ st op, perform op st) ops st.

(** ** Observations on the recorded calls *)

(** The calls made between two states of one run. *)
Definition calls_since (before after : state) : list call :=
  drop (length (calls before)) (calls after).

(** The bounds given to [future.wait_for]. *)
Definition future_wait_bounds (cs : list call) : list Z :=
  omap (λ c, match c with c_future_wait_for ms => Some ms | _ => None end) cs.

(** The bounds given to [token->wait_for]. *)
Definition token_wait_bounds (cs : list call) : list Z :=
  omap (λ c, match c with c_token_wait_for ms => Some ms | _ => None end) cs.

Definition is_publish (c : call) : bool :=
  match c with c_publish _ _ => true | _ => false end.

Definition is_reconnect (c : call) : bool :=
  match c with c_reconnect => true | _ => false end.

(** ** Assumptions on the world *)

(** What a call that returns a token and the wait on that token can throw. *)
Definition may_throw (answer : outcome token) (e : exn) : Prop :=
  answer = Raised e ∨ ∃ tok, answer = Normal tok ∧ wait tok = Raised e.

(** What [m_client.reconnect()] and the bounded wait on its token can throw. *)
Definition reconnect_may_throw (answer : outcome token) (e : exn) : Prop :=
  answer = Raised e ∨ ∃ tok ms, answer = Normal tok ∧ wait_for tok ms = Raised e.

(** The result of the task of a timed publish, which depends on the answers
    of the broker client only. *)
Definition task_result (w : async_answers) : outcome PublishStatus :=
  match task_publish w with
  | Raised e => Raised e
  | Normal None => Raised (MqttException MQTTASYNC_FAILURE)
  | Normal (Some tok) =>
      match wait tok with
      | Normal _ => Normal Success
      | Raised e => Raised e
      end
  end.

(** Every exception met during a timed publish is a [std::exception]. *)
Definition throws_std_only (w : async_answers) : Prop :=
  (∀ e, launch w = Raised e → is_std_exception e = true) ∧
  (∀ e, task_result w = Raised e → is_std_exception e = true).

(** What a handler list of the timed publish makes of an exception. *)
Definition publish_handled (e : exn) : outcome PublishStatus :=
  if is_std_exception e then Normal Failure else Raised e.

(** What the handler of [reconnect] makes of an exception. *)
Definition reconnect_handled (e : exn) : outcome unit :=
  if is_mqtt_exception e then Normal tt else Raised e.

(** A property of the state that a computation keeps. *)
Definition preserves {A B} (observe : state → B) (m : M A) : Prop :=
  ∀ st, observe (snd (m st)) = observe st.

(** ** Further observations *)

(** What a broker call followed by [->wait()] on its token comes to. *)
Definition token_outcome (answer : outcome token) : outcome unit :=
  match answer with
  | Raised e => Raised e
  | Normal tok => wait tok
  end.

(** The calls of a broker call [c] followed by [->wait()] on its token: the
    wait is reached only when the call hands out a token. *)
Definition token_calls (c : call) (answer : outcome token) : list call :=
  c :: match answer with Normal _ => [c_token_wait] | Raised _ => [] end.

(** What the adapter and the pool hold of the subscriptions. *)
Definition subscriptions (st : state) : gmap string (list subscription_ptr) * list (list notification) * list Job :=
  (m_subscriberMap st, heap st, pool st).

(** Every pointer held by the subscriber map or by a queued job is the
    address of a handle. *)
Definition live_handles (st : state) : Prop :=
  (∀ topic s, TopicMap.has_record topic s (m_subscriberMap st) → s < length (heap st)) ∧
  (∀ j, j ∈ pool st → job_subscription j < length (heap st)).

(** The operations that are calls of [subscribeTopic] or [unsubscribeTopic]. *)
Definition changes_subscriptions (op : operation) : bool :=
  match op with
  | op_subscribe _ _ _ | op_unsubscribe _ _ => true
  | _ => false
  end.

(** The entries a run has added to the log. *)
Definition log_since (before after : state) : list log_entry :=
  drop (length (log before)) (log after).

(** What the delivery job of a payload hands to its subscription, given what
    the subscriber's callback does: the payload, or the error made from a
    [std::exception]; nothing when the job is left by another exception. *)
Definition job_notification (payload : string) (callback : outcome unit) : option notification :=
  match callback with
  | Normal _ => Some (Item payload)
  | Raised e =>
      if is_std_exception e then
        Some (Failed {| errorMessage :=
                          {| fmt := "MQTT: Callback threw an exception on update: {}";
                             args := [ArgWhat e] |} |})
      else None
  end.

(** ** Sample worlds *)

Definition broker_ok : token :=
  {| wait := Normal tt; wait_for := λ _, Normal true |}.

(** A token whose operation completes after [d] milliseconds. *)
Definition completes_after (d : Z) : token :=
  {| wait := Normal tt; wait_for := λ ms, Normal (d <=? ms)%Z |}.

Definition broker_refuses : outcome token := Raised (MqttException (-3)).

Definition client0 : state := MqttPubSubClient_plain "tcp://localhost:1883" "app".

Definition publish_in (d : Z) : async_answers :=
  {| launch := Normal tt;
     task_publish := Normal (Some broker_ok);
     task_ready_within := λ ms, (d <=? ms)%Z |}.

Definition publish_rejected : async_answers :=
  {| launch := Normal tt;
     task_publish := Raised (MqttException (-3));
     task_ready_within := λ ms, (5 <=? ms)%Z |}.

(** The broker client rejects the publish, but only 200 ms after the task
    has started. *)
Definition publish_rejected_late : async_answers :=
  {| launch := Normal tt;
     task_publish := Raised (MqttException (-3));
     task_ready_within := λ ms, (200 <=? ms)%Z |}.

(** The task is left at once by an object that is no [std::exception]. *)
Definition publish_throws_foreign : async_answers :=
  {| launch := Normal tt;
     task_publish := Raised ForeignException;
     task_ready_within := λ _, true |}.

Definition null_token : async_answers :=
  {| launch := Normal tt; task_publish := Normal None; task_ready_within := λ _, true |}.

Definition two_topics : state :=
  perform_all
    [op_subscribe "speed" 1 (Normal broker_ok);
     op_subscribe "doors" 1 (Normal broker_ok);
     op_subscribe "speed" 1 (Normal broker_ok)]
    client0.

(** ** Tactics *)

(** Reads a field of an updated state. *)
Ltac fields :=
  cbn [calls log heap pool m_connectOptions m_subscriberMap server_uri client_id
       set_calls set_log set_heap set_pool set_subscriberMap].

(** Runs a computation on a symbolic state as far as its tests are known. *)
Ltac run :=
  cbv [bind ret throw modify get_state try_catch select_handler ask logger
       token_wait token_wait_for future_wait_for future_get std_async publish_task
       make_shared_subscription receive enqueue fst snd];
  fields;
  cbn [ready_within stored is_mqtt_exception is_std_exception].

(** ** Examples *)

Example reconnect_in_time :
  reconnect 500 (Normal (completes_after 200)) client0
  = (Normal tt,
     set_log [ {| lvl := L_info;
                  msg := {| fmt := "Attempting to reconnect to MQTT broker"; args := [] |} |};
               {| lvl := L_info;
                  msg := {| fmt := "Successfully reconnected to MQTT broker."; args := [] |} |} ]
       (set_calls [c_set_callback; c_reconnect; c_token_wait_for 500] client0)).
Proof. reflexivity. Qed.

Example reconnect_capped :
  calls (snd (reconnect 45000 (Normal (completes_after 40000)) client0))
  = [c_set_callback; c_reconnect; c_token_wait_for 30000].
Proof. reflexivity. Qed.

Example publish_timed_success :
  fst (publishOnTopic_timed "t" "x" 1000 (publish_in 10) client0) = Normal Success.
Proof. reflexivity. Qed.

Example publish_timed_capped :
  fst (publishOnTopic_timed "t" "x" 50000 (publish_in 40000) client0) = Normal Timeout.
Proof. reflexivity. Qed.

Example publish_timed_null_token :
  fst (publishOnTopic_timed "t" "x" 1000
         {| launch := Normal tt; task_publish := Normal None;
            task_ready_within := λ _, true |} client0) = Normal Failure.
Proof. reflexivity. Qed.

(** An exception that leaves the task after the bound has expired stays in
    the future: the caller is told [Timeout]. *)
Example publish_timed_late_failure :
  fst (publishOnTopic_timed "t" "x" 100
         {| launch := Normal tt; task_publish := Raised (MqttException (-3));
            task_ready_within := λ ms, (200 <=? ms)%Z |} client0) = Normal Timeout.
Proof. reflexivity. Qed.

(** A subscription on a filter with a wildcard receives nothing from a topic
    that the filter would match. *)
Example no_wildcard_delivery :
  let st := snd (subscribeTopic "sensors/#" 1 (Normal broker_ok) client0) in
  pool (snd (message_arrived {| get_topic := "sensors/speed"; get_payload_str := "42" |} st))
  = [].
Proof. reflexivity. Qed.

Example two_subscribers_two_jobs :
  let st1 := snd (subscribeTopic "speed" 1 (Normal broker_ok) client0) in
  let st2 := snd (subscribeTopic "speed" 1 (Normal broker_ok) st1) in
  pool (snd (message_arrived {| get_topic := "speed"; get_payload_str := "42" |} st2))
  = [ {| job_subscription := 0; job_payload := "42" |};
      {| job_subscription := 1; job_payload := "42" |} ].
Proof. vm_compute. reflexivity. Qed.

(** With the place that libstdc++ chooses, right after the first record of
    equal key, a third subscriber of a topic comes second in its range, and
    its job is queued second. *)
Example insert_after_first :
  let st := snd (subscribeTopic "speed" 1 (Normal broker_ok) two_topics) in
  TopicMap.equal_range "speed" (m_subscriberMap st) = [0; 3; 2] ∧
  pool (snd (message_arrived {| get_topic := "speed"; get_payload_str := "42" |} st))
  = [job_for "42" 0; job_for "42" 3; job_for "42" 2].
Proof. split; reflexivity. Qed.

(** ** Frame lemmas *)

Section Preservation.
Context {B : Type} (observe : state → B).

Lemma preserves_ret {A} (a : A) : preserves observe (ret a).
Proof. by intros st. Qed.

Lemma preserves_throw {A} (e : exn) : preserves observe (@throw A e).
Proof. by intros st. Qed.

Lemma preserves_get_state : preserves observe get_state.
Proof. by intros st. Qed.

Lemma preserves_bind {A C} (m : M A) (k : A → M C) :
  preserves observe m → (∀ a, preserves observe (k a)) → preserves observe (bind m k).
Proof.
  intros Hm Hk st. unfold bind. specialize (Hm st).
  destruct (m st) as [[a|e] st']; simpl in *; [|done].
  by rewrite Hk.
Qed.

Lemma preserves_try_catch {A} (body : M A) (hs : list (handler A)) :
  preserves observe body →
  Forall (λ h, ∀ e, preserves observe (h.2 e)) hs →
  preserves observe (try_catch body hs).
Proof.
  intros Hbody Hhs st. unfold try_catch. specialize (Hbody st).
  destruct (body st) as [[a|e] st']; simpl in *; [done|].
  induction Hhs as [|[catches h] hs Hh _ IH]; simpl; [done|].
  destruct (catches e); [|done].
  etrans; [apply (Hh e st')|done].
Qed.

Lemma preserves_for_each {A} (l : list A) (body : A → M unit) :
  (∀ a, preserves observe (body a)) → preserves observe (for_each l body).
Proof.
  intros Hbody. induction l as [|x l IH]; simpl.
  - apply preserves_ret.
  - apply preserves_bind; auto.
Qed.

Lemma preserves_modify (f : state → state) :
  (∀ st, observe (f st) = observe st) → preserves observe (modify f).
Proof. intros Hf st. apply Hf. Qed.

Lemma preserves_if {A} (b : bool) (m1 m2 : M A) :
  preserves observe m1 → preserves observe m2 →
  preserves observe (if b then m1 else m2).
Proof. by destruct b. Qed.
End Preservation.

Lemma options_logger l f a : preserves m_connectOptions (logger l f a).
Proof. by intros st. Qed.

Lemma options_ask {A} c (answer : outcome A) : preserves m_connectOptions (ask c answer).
Proof. by intros st. Qed.

Lemma options_token_wait tok : preserves m_connectOptions (token_wait tok).
Proof. apply options_ask. Qed.

Lemma options_token_wait_for tok ms : preserves m_connectOptions (token_wait_for tok ms).
Proof. apply options_ask. Qed.

Lemma options_receive s n : preserves m_connectOptions (receive s n).
Proof. by intros st. Qed.

Lemma options_enqueue j : preserves m_connectOptions (enqueue j).
Proof. by intros st. Qed.

Lemma options_make_shared : preserves m_connectOptions make_shared_subscription.
Proof. by intros st. Qed.

Lemma options_std_async {A} l r (task : M A) :
  preserves m_connectOptions task → preserves m_connectOptions (std_async l r task).
Proof.
  intros Htask. apply preserves_bind; [apply options_ask|].
  intros _ st. specialize (Htask st). by destruct (task st).
Qed.

Create HintDb frame discriminated.
#[local] Hint Resolve preserves_ret preserves_throw preserves_get_state
  options_logger options_ask options_token_wait options_token_wait_for
  options_receive options_enqueue options_make_shared : frame.

Ltac frame :=
  repeat first
    [ progress eauto with frame
    | apply options_std_async
    | apply preserves_bind; [|intros ?]
    | apply preserves_if
    | apply preserves_try_catch; [|repeat constructor; intros ?]
    | apply preserves_for_each; intros ?
    | apply preserves_modify; by intros ?
    | match goal with |- preserves _ (match ?x with _ => _ end) => destruct x end ].

Lemma options_connect v a : preserves m_connectOptions (connect v a).
Proof. unfold connect. frame. Qed.

Lemma options_reconnect t a : preserves m_connectOptions (reconnect t a).
Proof. unfold reconnect. frame. Qed.

Lemma options_disconnect a : preserves m_connectOptions (disconnect a).
Proof. unfold disconnect. frame. Qed.

Lemma options_isConnected b : preserves m_connectOptions (isConnected b).
Proof. unfold isConnected. frame. Qed.

Lemma options_publishOnTopic topic data a :
  preserves m_connectOptions (publishOnTopic topic data a).
Proof. unfold publishOnTopic. frame. Qed.

Lemma options_publishOnTopic_timed topic data t w :
  preserves m_connectOptions (publishOnTopic_timed topic data t w).
Proof. unfold publishOnTopic_timed, publish_task, future_wait_for, future_get. frame. Qed.

Lemma options_subscribeTopic topic place a :
  preserves m_connectOptions (subscribeTopic topic place a).
Proof. unfold subscribeTopic. frame. Qed.

Lemma options_unsubscribeTopic topic a :
  preserves m_connectOptions (unsubscribeTopic topic a).
Proof. unfold unsubscribeTopic. frame. Qed.

Lemma options_message_arrived msg : preserves m_connectOptions (message_arrived msg).
Proof. unfold message_arrived. frame. Qed.

Lemma options_worker_step cb : preserves m_connectOptions (worker_step cb).
Proof. unfold worker_step, run_job, insertNewItem, insertError. frame. Qed.

Lemma options_perform op st : m_connectOptions (perform op st) = m_connectOptions st.
Proof.
  destruct op; unfold perform.
  - apply options_connect.
  - apply options_reconnect.
  - apply options_disconnect.
  - apply options_isConnected.
  - apply options_publishOnTopic.
  - apply options_publishOnTopic_timed.
  - apply options_subscribeTopic.
  - apply options_unsubscribeTopic.
  - apply options_message_arrived.
  - apply options_worker_step.
Qed.

Lemma options_perform_all ops st :
  m_connectOptions (perform_all ops st) = m_connectOptions st.
Proof.
  revert st. induction ops as [|op ops IH]; intros st; simpl; [done|].
  unfold perform_all in IH. by rewrite IH, options_perform.
Qed.

(** ** Recorded calls *)

Lemma calls_since_app st st' new :
  calls st' = (calls st ++ new)%list → calls_since st st' = new.
Proof. intros H. unfold calls_since. rewrite H. apply drop_app_length. Qed.

Lemma calls_since_same st st' : calls st' = calls st → calls_since st st' = [].
Proof. intros H. apply calls_since_app. by rewrite app_nil_r. Qed.

(** ** The timed publish *)

(** A timed publish with a timeout that is not positive, in full: it logs a
    warning and returns. *)
Lemma publish_timed_nonpositive_run topic data timeout_ms w st :
  (timeout_ms ≤ 0)%Z →
  publishOnTopic_timed topic data timeout_ms w st =
  (Normal Timeout,
   set_log
     (log st ++
      [{| lvl := L_warn;
          msg := {| fmt := "Invalid timeout value ({} ms); must be > 0";
                    args := [ArgInt timeout_ms] |} |}])
     st).
Proof.
  intros Hle. unfold publishOnTopic_timed.
  destruct (Z.leb_spec timeout_ms 0) as [_|Hgt]; [|lia].
  by run.
Qed.

(** C1: a timed publish with a timeout that is not positive returns
    [PublishStatus::Timeout], and no call is made on the broker client (or on
    any other collaborator than the logger): in particular no publish is
    attempted. *)
Theorem publish_timed_rejects_nonpositive topic data timeout_ms w st :
  (timeout_ms ≤ 0)%Z →
  fst (publishOnTopic_timed topic data timeout_ms w st) = Normal Timeout ∧
  calls (snd (publishOnTopic_timed topic data timeout_ms w st)) = calls st ∧
  filter is_publish (calls_since st (snd (publishOnTopic_timed topic data timeout_ms w st))) = [].
Proof.
  intros Hle. rewrite publish_timed_nonpositive_run by done. fields.
  split; [done|]. split; [done|]. by rewrite calls_since_same.
Qed.

Lemma publish_timed_rejects_nonpositive_witness :
  (-5 ≤ 0)%Z ∧
  fst (publishOnTopic_timed "speed" "42" (-5) (publish_in 1) client0) = Normal Timeout ∧
  calls (snd (publishOnTopic_timed "speed" "42" (-5) (publish_in 1) client0)) = calls client0 ∧
  filter is_publish
    (calls_since client0 (snd (publishOnTopic_timed "speed" "42" (-5) (publish_in 1) client0)))
  = [].
Proof.
  split; [lia|]. apply (publish_timed_rejects_nonpositive "speed" "42" (-5)). lia.
Defined.

(** The calls of the task of a timed publish. *)
Lemma publish_task_run topic data w st :
  publish_task topic data (task_publish w) st =
  (task_result w,
   set_calls (calls st ++ [c_publish topic data]
              ++ match task_publish w with
                 | Normal (Some _) => [c_token_wait]
                 | _ => []
                 end) st).
Proof.
  unfold task_result. run.
  destruct (task_publish w) as [[tok|]|e]; run; try by rewrite app_nil_r.
  destruct (wait tok); by rewrite <- app_assoc.
Qed.

(** A timed publish with a positive timeout, in full: its result and the
    calls it makes, with [bound] the smaller of the timeout and the cap. *)
Lemma publish_timed_run topic data timeout_ms w st :
  (0 < timeout_ms)%Z →
  let bound := Z.min timeout_ms MAX_TIMEOUT_MS in
  let st' := snd (publishOnTopic_timed topic data timeout_ms w st) in
  fst (publishOnTopic_timed topic data timeout_ms w st) =
    match launch w with
    | Raised e => publish_handled e
    | Normal _ =>
        if task_ready_within w bound then
          match task_result w with
          | Normal s => Normal s
          | Raised e => publish_handled e
          end
        else Normal Timeout
    end ∧
  calls_since st st' =
    c_async ::
    match launch w with
    | Raised _ => []
    | Normal _ =>
        c_publish topic data ::
        match task_publish w with Normal (Some _) => [c_token_wait] | _ => [] end
        ++ c_future_wait_for bound ::
        (if task_ready_within w bound then [c_future_get] else [])
    end.
Proof.
  intros Hpos bound st'. subst st'.
  assert (Hbound : (if (timeout_ms >? MAX_TIMEOUT_MS)%Z then MAX_TIMEOUT_MS else timeout_ms)
                   = bound).
  { subst bound. destruct (Z.gtb_spec timeout_ms MAX_TIMEOUT_MS); lia. }
  clearbody bound.
  unfold publishOnTopic_timed, task_result, publish_handled.
  destruct (Z.leb_spec timeout_ms 0) as [|_]; [lia|].
  destruct (timeout_ms >? MAX_TIMEOUT_MS)%Z; subst bound; run;
    (destruct (launch w) as [[]|e]; run;
     [ destruct (task_publish w) as [[tok|]|e]; run;
       [ destruct (wait tok) as [[]|e]; run | | ];
       destruct (task_ready_within w _); run;
       try (destruct e; run)
     | destruct e; run ]);
    (split; [done|]; apply calls_since_app; simpl;
     by rewrite <- ?app_assoc).
Qed.

(** C2: when the task is started, a timed publish waits for the future
    exactly once; with a timeout above 30000 ms the bound of that wait is
    30000 ms, and with a timeout in (0, 30000] it is the timeout as it was
    requested.  (When [std::async] throws there is no task and no wait.) *)
Theorem publish_timed_wait_bound topic data timeout_ms w st :
  let waits :=
    future_wait_bounds
      (calls_since st (snd (publishOnTopic_timed topic data timeout_ms w st))) in
  let if_started (l : list Z) := match launch w with Normal _ => l | Raised _ => [] end in
  ((30000 < timeout_ms)%Z → waits = if_started [30000%Z]) ∧
  ((0 < timeout_ms ≤ 30000)%Z → waits = if_started [timeout_ms]).
Proof.
  intros waits if_started. subst waits if_started.
  assert (Hwaits : ∀ bound : Z,
    future_wait_bounds
      (c_async ::
       match launch w with
       | Raised _ => []
       | Normal _ =>
           c_publish topic data ::
           match task_publish w with Normal (Some _) => [c_token_wait] | _ => [] end
           ++ c_future_wait_for bound ::
           (if task_ready_within w bound then [c_future_get] else [])
       end)
    = match launch w with Normal _ => [bound] | Raised _ => [] end).
  { intros bound. destruct (launch w); [|done].
    destruct (task_publish w) as [[?|]|?]; by destruct (task_ready_within w bound). }
  split; intros Ht.
  - destruct (publish_timed_run topic data timeout_ms w st) as [_ ->]; [lia|].
    rewrite Hwaits. unfold MAX_TIMEOUT_MS. by rewrite Z.min_r by lia.
  - destruct (publish_timed_run topic data timeout_ms w st) as [_ ->]; [lia|].
    rewrite Hwaits. unfold MAX_TIMEOUT_MS. by rewrite Z.min_l by lia.
Qed.

Lemma publish_timed_wait_bound_witness :
  future_wait_bounds
    (calls_since client0 (snd (publishOnTopic_timed "speed" "42" 45000 (publish_in 1) client0)))
  = [30000%Z] ∧
  future_wait_bounds
    (calls_since client0 (snd (publishOnTopic_timed "speed" "42" 250 (publish_in 1) client0)))
  = [250%Z].
Proof.
  split.
  - apply (proj1 (publish_timed_wait_bound "speed" "42" 45000 (publish_in 1) client0)). lia.
  - apply (proj2 (publish_timed_wait_bound "speed" "42" 250 (publish_in 1) client0)). lia.
Defined.

(** C3, as the code has it: when every exception met is a [std::exception]
    (the class of [mqtt::exception] included), a timed publish is left by no
    exception and returns a [PublishStatus].  With a positive timeout and
    [bound] the smaller of the timeout and 30000 ms, it returns [Success]
    when the task ends normally within the bound, [Timeout] when the task
    does not end within the bound, whatever its result will be (an exception
    that leaves the task later stays in the future), and [Failure] when
    [std::async] throws a [std::exception] or the task is left by one within
    the bound. *)
Theorem publish_timed_status topic data timeout_ms w st :
  let r := fst (publishOnTopic_timed topic data timeout_ms w st) in
  let bound := Z.min timeout_ms MAX_TIMEOUT_MS in
  ((0 < timeout_ms)%Z → launch w = Normal tt → task_ready_within w bound = true →
   task_result w = Normal Success → r = Normal Success) ∧
  ((0 < timeout_ms)%Z → launch w = Normal tt → task_ready_within w bound = false →
   r = Normal Timeout) ∧
  (throws_std_only w →
   (r = Normal Success ∨ r = Normal Timeout ∨ r = Normal Failure) ∧
   (∀ e, (0 < timeout_ms)%Z → launch w = Raised e → r = Normal Failure) ∧
   (∀ e, (0 < timeout_ms)%Z → launch w = Normal tt → task_ready_within w bound = true →
         task_result w = Raised e → r = Normal Failure)).
Proof.
  intros r bound. subst r.
  split; [|split].
  - intros Hpos Hl Hr Ht.
    destruct (publish_timed_run topic data timeout_ms w st Hpos) as [-> _].
    fold bound. by rewrite Hl, Hr, Ht.
  - intros Hpos Hl Hr.
    destruct (publish_timed_run topic data timeout_ms w st Hpos) as [-> _].
    fold bound. by rewrite Hl, Hr.
  - intros [Hlaunch Htask]. split; [|split].
    + destruct (Z.le_gt_cases timeout_ms 0) as [Hle|Hpos].
      { right; left. by rewrite publish_timed_nonpositive_run. }
      destruct (publish_timed_run topic data timeout_ms w st Hpos) as [-> _].
      fold bound. unfold publish_handled.
      destruct (launch w) as [[]|e] eqn:Hl.
      * destruct (task_ready_within w bound); [|by right; left].
        destruct (task_result w) as [s|e] eqn:Ht.
        -- destruct s; auto.
        -- rewrite (Htask e eq_refl). auto.
      * rewrite (Hlaunch e eq_refl). auto.
    + intros e Hpos Hl.
      destruct (publish_timed_run topic data timeout_ms w st Hpos) as [-> _].
      rewrite Hl. unfold publish_handled. by rewrite (Hlaunch e Hl).
    + intros e Hpos Hl Hr Ht.
      destruct (publish_timed_run topic data timeout_ms w st Hpos) as [-> _].
      fold bound. rewrite Hl, Hr, Ht. unfold publish_handled. by rewrite (Htask e Ht).
Qed.

Lemma publish_rejected_throws_std_only : throws_std_only publish_rejected.
Proof.
  split; intros e He; vm_compute in He; [discriminate|].
  injection He as <-. reflexivity.
Defined.

Lemma publish_timed_status_witness :
  fst (publishOnTopic_timed "speed" "42" 1000 (publish_in 10) client0) = Normal Success ∧
  fst (publishOnTopic_timed "speed" "42" 1000 (publish_in 2000) client0) = Normal Timeout ∧
  fst (publishOnTopic_timed "speed" "42" 1000 publish_rejected client0) = Normal Failure.
Proof.
  split; [|split].
  - apply (proj1 (publish_timed_status "speed" "42" 1000 (publish_in 10) client0));
      [lia|reflexivity..].
  - apply (proj1 (proj2 (publish_timed_status "speed" "42" 1000 (publish_in 2000) client0)));
      [lia|reflexivity..].
  - apply (proj2 (proj2 (proj2 (proj2
             (publish_timed_status "speed" "42" 1000 publish_rejected client0))
             publish_rejected_throws_std_only)) (MqttException (-3)));
      [lia|reflexivity..].
Defined.

(** C3, as it is stated, fails twice.  An exception of the broker client
    that leaves the task after the bound has expired is not mapped to
    [Failure]: it stays in the future, no handler sees it, and the caller is
    told [Timeout].  And an object that is no [std::exception] passes both
    handlers and leaves the timed publish. *)
Lemma publish_timed_exceptions_not_all_failure :
  (task_result publish_rejected_late = Raised (MqttException (-3)) ∧
   fst (publishOnTopic_timed "speed" "42" 100 publish_rejected_late client0) = Normal Timeout ∧
   fst (publishOnTopic_timed "speed" "42" 100 publish_rejected_late client0) ≠ Normal Failure) ∧
  ¬ returns_normally
      (fst (publishOnTopic_timed "speed" "42" 100 publish_throws_foreign client0)).
Proof.
  split; [split; [reflexivity|split; [reflexivity|]]|].
  - vm_compute. discriminate.
  - vm_compute. tauto.
Qed.

(** ** [reconnect] *)

(** [reconnect] with a positive timeout, in full. *)
Lemma reconnect_run timeout_ms answer st :
  (0 < timeout_ms)%Z →
  let bound := Z.min timeout_ms MAX_TIMEOUT_MS in
  fst (reconnect timeout_ms answer st) =
    match answer with
    | Raised e => reconnect_handled e
    | Normal tok =>
        match wait_for tok bound with
        | Normal _ => Normal tt
        | Raised e => reconnect_handled e
        end
    end ∧
  calls_since st (snd (reconnect timeout_ms answer st)) =
    c_reconnect ::
    match answer with
    | Normal _ => [c_token_wait_for bound]
    | Raised _ => []
    end.
Proof.
  intros Hpos bound.
  assert (Hbound : (if (timeout_ms >? MAX_TIMEOUT_MS)%Z then MAX_TIMEOUT_MS else timeout_ms)
                   = bound).
  { subst bound. destruct (Z.gtb_spec timeout_ms MAX_TIMEOUT_MS); lia. }
  clearbody bound.
  unfold reconnect, reconnect_handled.
  destruct (Z.leb_spec timeout_ms 0) as [|_]; [lia|].
  destruct (timeout_ms >? MAX_TIMEOUT_MS)%Z; subst bound; run;
    (destruct answer as [tok|e]; run;
     [ destruct (wait_for tok _) as [[]|e]; run; try (destruct e; run)
     | destruct e; run ]);
    (split; [done|]; apply calls_since_app; simpl; by rewrite <- ?app_assoc).
Qed.

(** C7: when the broker client hands out a token, [reconnect] waits on it
    exactly once; with a timeout above 30000 ms the bound of that wait is
    30000 ms, and with a timeout in (0, 30000] it is the timeout as it was
    requested.  (When [m_client.reconnect()] throws there is no token and no
    wait.) *)
Theorem reconnect_wait_bound timeout_ms answer st :
  let waits := token_wait_bounds (calls_since st (snd (reconnect timeout_ms answer st))) in
  let if_token (l : list Z) := match answer with Normal _ => l | Raised _ => [] end in
  ((30000 < timeout_ms)%Z → waits = if_token [30000%Z]) ∧
  ((0 < timeout_ms ≤ 30000)%Z → waits = if_token [timeout_ms]).
Proof.
  intros waits if_token. subst waits if_token.
  split; intros Ht.
  - destruct (reconnect_run timeout_ms answer st) as [_ ->]; [lia|].
    unfold MAX_TIMEOUT_MS. rewrite Z.min_r by lia. by destruct answer.
  - destruct (reconnect_run timeout_ms answer st) as [_ ->]; [lia|].
    unfold MAX_TIMEOUT_MS. rewrite Z.min_l by lia. by destruct answer.
Qed.

Lemma reconnect_wait_bound_witness :
  token_wait_bounds
    (calls_since client0 (snd (reconnect 45000 (Normal (completes_after 40000)) client0)))
  = [30000%Z] ∧
  token_wait_bounds
    (calls_since client0 (snd (reconnect 250 (Normal (completes_after 40000)) client0)))
  = [250%Z].
Proof.
  split.
  - apply (proj1 (reconnect_wait_bound 45000 (Normal (completes_after 40000)) client0)). lia.
  - apply (proj2 (reconnect_wait_bound 250 (Normal (completes_after 40000)) client0)). lia.
Defined.

(** [reconnect] with a timeout that is not positive, in full. *)
Lemma reconnect_nonpositive_run timeout_ms answer st :
  (timeout_ms ≤ 0)%Z →
  reconnect timeout_ms answer st =
  (Normal tt,
   set_log
     (log st ++
      [ {| lvl := L_info;
           msg := {| fmt := "Attempting to reconnect to MQTT broker"; args := [] |} |};
        {| lvl := L_error;
           msg := {| fmt := "Invalid timeout value: {} ms. Must be positive.";
                     args := [ArgInt timeout_ms] |} |} ])
     st).
Proof.
  intros Hle. unfold reconnect.
  destruct (Z.leb_spec timeout_ms 0) as [_|Hgt]; [|lia].
  run. by rewrite <- app_assoc.
Qed.

(** C9: [reconnect] with a timeout that is not positive returns at once: it
    logs that it attempts to reconnect, logs the invalid timeout as an error,
    and makes no call on the broker client. *)
Theorem reconnect_rejects_nonpositive timeout_ms answer st :
  (timeout_ms ≤ 0)%Z →
  fst (reconnect timeout_ms answer st) = Normal tt ∧
  calls (snd (reconnect timeout_ms answer st)) = calls st ∧
  filter is_reconnect (calls_since st (snd (reconnect timeout_ms answer st))) = [] ∧
  log (snd (reconnect timeout_ms answer st)) =
    (log st ++
     [ {| lvl := L_info;
          msg := {| fmt := "Attempting to reconnect to MQTT broker"; args := [] |} |};
       {| lvl := L_error;
          msg := {| fmt := "Invalid timeout value: {} ms. Must be positive.";
                    args := [ArgInt timeout_ms] |} |} ])%list.
Proof.
  intros Hle. rewrite reconnect_nonpositive_run by done. fields.
  split; [done|]. split; [done|]. split; [by rewrite calls_since_same|done].
Qed.

Lemma reconnect_rejects_nonpositive_witness :
  (0 ≤ 0)%Z ∧
  fst (reconnect 0 (Normal broker_ok) client0) = Normal tt ∧
  calls (snd (reconnect 0 (Normal broker_ok) client0)) = calls client0 ∧
  filter is_reconnect (calls_since client0 (snd (reconnect 0 (Normal broker_ok) client0))) = [] ∧
  log (snd (reconnect 0 (Normal broker_ok) client0)) =
    (log client0 ++
     [ {| lvl := L_info;
          msg := {| fmt := "Attempting to reconnect to MQTT broker"; args := [] |} |};
       {| lvl := L_error;
          msg := {| fmt := "Invalid timeout value: {} ms. Must be positive.";
                    args := [ArgInt 0] |} |} ])%list.
Proof.
  split; [lia|]. apply (reconnect_rejects_nonpositive 0 (Normal broker_ok) client0). lia.
Defined.

(** C4, as the code has it: [reconnect] returns normally whenever the broker
    client succeeds, lets the bound expire, or throws an [mqtt::exception]
    (an object of that class or of a class derived from it).  The handler
    names that class only. *)
Theorem reconnect_catches_mqtt timeout_ms answer st :
  (∀ e, reconnect_may_throw answer e → is_mqtt_exception e = true) →
  fst (reconnect timeout_ms answer st) = Normal tt.
Proof.
  intros Hmqtt.
  destruct (Z.le_gt_cases timeout_ms 0) as [Hle|Hpos].
  { by rewrite reconnect_nonpositive_run. }
  destruct (reconnect_run timeout_ms answer st Hpos) as [-> _].
  unfold reconnect_handled.
  destruct answer as [tok|e].
  - destruct (wait_for tok _) as [completed|e] eqn:Hw; [done|].
    rewrite Hmqtt; [done|]. right. eauto.
  - rewrite Hmqtt; [done|]. by left.
Qed.

Lemma reconnect_catches_mqtt_witness :
  fst (reconnect 1000 broker_refuses client0) = Normal tt.
Proof.
  apply (reconnect_catches_mqtt 1000 broker_refuses client0).
  intros e [He|(tok & ms & He & _)]; [|discriminate He].
  injection He as <-. reflexivity.
Defined.

(** C4, as it is stated, fails: an exception of the broker client that is a
    [std::exception] but no [mqtt::exception] leaves [reconnect]. *)
Lemma reconnect_propagates_other_exception :
  ¬ returns_normally
      (fst (reconnect 1000 (Raised (StdException "std::bad_alloc")) client0)).
Proof. vm_compute. tauto. Qed.

(** ** Subscriptions *)

Lemma equal_range_insert_eq topic s place (m : gmap string (list subscription_ptr)) :
  TopicMap.equal_range topic (TopicMap.insert topic s place m)
  = (take place (TopicMap.equal_range topic m)
     ++ s :: drop place (TopicMap.equal_range topic m))%list.
Proof. unfold TopicMap.insert, TopicMap.equal_range. by rewrite lookup_insert_eq. Qed.

Lemma equal_range_insert_perm topic s place (m : gmap string (list subscription_ptr)) :
  TopicMap.equal_range topic (TopicMap.insert topic s place m)
  ≡ₚ (TopicMap.equal_range topic m ++ [s])%list.
Proof.
  rewrite equal_range_insert_eq. rewrite <- Permutation_middle.
  by rewrite take_drop, <- Permutation_cons_append.
Qed.

Lemma has_record_insert topic s place other s' (m : gmap string (list subscription_ptr)) :
  TopicMap.has_record other s' (TopicMap.insert topic s place m) ↔
  TopicMap.has_record other s' m ∨ (other = topic ∧ s' = s).
Proof.
  unfold TopicMap.has_record. destruct (decide (topic = other)) as [<-|Hne].
  - rewrite equal_range_insert_perm, elem_of_app, list_elem_of_singleton. tauto.
  - unfold TopicMap.insert, TopicMap.equal_range. rewrite lookup_insert_ne by done.
    split; [tauto|]. intros [?|[? _]]; [done|congruence].
Qed.

Lemma equal_range_insert_ne topic other s place (m : gmap string (list subscription_ptr)) :
  topic ≠ other →
  TopicMap.equal_range other (TopicMap.insert topic s place m) = TopicMap.equal_range other m.
Proof.
  intros Hne. unfold TopicMap.insert, TopicMap.equal_range.
  by rewrite lookup_insert_ne.
Qed.

Lemma equal_range_erase_eq topic (m : gmap string (list subscription_ptr)) :
  TopicMap.equal_range topic (TopicMap.erase_range topic m) = [].
Proof. unfold TopicMap.erase_range, TopicMap.equal_range. by rewrite lookup_delete_eq. Qed.

Lemma equal_range_erase_ne topic other (m : gmap string (list subscription_ptr)) :
  topic ≠ other →
  TopicMap.equal_range other (TopicMap.erase_range topic m) = TopicMap.equal_range other m.
Proof.
  intros Hne. unfold TopicMap.erase_range, TopicMap.equal_range.
  by rewrite lookup_delete_ne.
Qed.

(** C6: when [unsubscribeTopic(t)] returns, the subscriber map holds no
    record with key [t], and the records with any other key are the ones it
    held before. *)
Theorem unsubscribeTopic_erases topic answer st st' :
  unsubscribeTopic topic answer st = (Normal tt, st') →
  (∀ s, ¬ TopicMap.has_record topic s (m_subscriberMap st')) ∧
  (∀ other, other ≠ topic →
     m_subscriberMap st' !! other = m_subscriberMap st !! other ∧
     TopicMap.equal_range other (m_subscriberMap st')
     = TopicMap.equal_range other (m_subscriberMap st)).
Proof.
  unfold unsubscribeTopic. run.
  destruct answer as [tok|e]; [|done].
  destruct (wait tok) as [[]|e]; [|done].
  intros [= <-]. fields. split.
  - intros s. unfold TopicMap.has_record.
    rewrite equal_range_erase_eq. apply not_elem_of_nil.
  - intros other Hne. split.
    + unfold TopicMap.erase_range. by rewrite lookup_delete_ne.
    + by apply equal_range_erase_ne.
Qed.

Lemma unsubscribeTopic_erases_witness :
  TopicMap.equal_range "speed" (m_subscriberMap two_topics) = [0; 2] ∧
  TopicMap.equal_range "speed"
    (m_subscriberMap (snd (unsubscribeTopic "speed" (Normal broker_ok) two_topics))) = [] ∧
  TopicMap.equal_range "doors"
    (m_subscriberMap (snd (unsubscribeTopic "speed" (Normal broker_ok) two_topics))) = [1].
Proof.
  pose proof (unsubscribeTopic_erases "speed" (Normal broker_ok) two_topics
                (snd (unsubscribeTopic "speed" (Normal broker_ok) two_topics)) eq_refl)
    as [Hgone Hkept].
  split; [reflexivity|]. split.
  - destruct (TopicMap.equal_range "speed" _) as [|s l] eqn:Hrange; [done|].
    destruct (Hgone s). unfold TopicMap.has_record. rewrite Hrange. apply list_elem_of_here.
  - destruct (Hkept "doors") as [_ ->]; [done|]. reflexivity.
Defined.

(** C10: [subscribeTopic] registers the new record before it calls the
    broker client: the run is a registration that makes no call and leaves
    the record in the map, followed by the broker-level subscribe.  So
    whatever the broker client answers, the map holds the new record
    afterwards, beside the records that the topic had (wherever the container
    has put it among them), and an exception of the broker-level subscribe
    (of the call or of the wait on its token) leaves [subscribeTopic] with
    the record registered. *)
Theorem subscribeTopic_registers_first topic place answer st :
  let subscription := length (heap st) in
  let r := subscribeTopic topic place answer st in
  (∃ registered,
     calls registered = calls st ∧
     TopicMap.has_record topic subscription (m_subscriberMap registered) ∧
     r = (tok <- ask (c_subscribe topic 0) answer ;;
          token_wait tok ;;
          ret subscription) registered) ∧
  TopicMap.has_record topic subscription (m_subscriberMap (snd r)) ∧
  TopicMap.equal_range topic (m_subscriberMap (snd r))
  ≡ₚ (TopicMap.equal_range topic (m_subscriberMap st) ++ [subscription])%list ∧
  (∀ e, may_throw answer e → fst r = Raised e).
Proof.
  intros subscription r. subst subscription r.
  assert (Hmap : m_subscriberMap (snd (subscribeTopic topic place answer st))
                 = TopicMap.insert topic (length (heap st)) place (m_subscriberMap st)).
  { unfold subscribeTopic. run.
    destruct answer as [tok|e]; [destruct (wait tok) as [[]|e]|]; done. }
  split; [|split; [|split]].
  - exists (set_subscriberMap
              (TopicMap.insert topic (length (heap st)) place (m_subscriberMap st))
              (set_heap (heap st ++ [[]])
                 (set_log
                    (log st ++
                     [{| lvl := L_debug;
                         msg := {| fmt := "Subscribing to {}"; args := [ArgStr topic] |} |}])
                    st))).
    split; [done|]. split; [|done].
    fields. apply has_record_insert. by right.
  - rewrite Hmap. apply has_record_insert. by right.
  - rewrite Hmap. apply equal_range_insert_perm.
  - intros e [->|(tok & -> & Hwait)]; unfold subscribeTopic; run; [done|].
    by rewrite Hwait.
Qed.

Lemma subscribeTopic_registers_first_witness :
  fst (subscribeTopic "speed" 1 broker_refuses client0) = Raised (MqttException (-3)) ∧
  TopicMap.has_record "speed" 0
    (m_subscriberMap (snd (subscribeTopic "speed" 1 broker_refuses client0))).
Proof.
  pose proof (subscribeTopic_registers_first "speed" 1 broker_refuses client0)
    as (_ & Hrecord & _ & Hthrow).
  split.
  - apply Hthrow. by left.
  - exact Hrecord.
Defined.

(** ** Delivery *)

Lemma for_each_enqueue payload (l : list subscription_ptr) st :
  for_each l (λ s, enqueue (job_for payload s)) st
  = (Normal tt, set_pool (pool st ++ map (job_for payload) l) st).
Proof.
  revert st. induction l as [|s l IH]; intros st; simpl.
  - unfold ret, set_pool. rewrite app_nil_r. by destruct st.
  - unfold bind at 1. unfold enqueue at 1, modify. rewrite IH.
    unfold set_pool. fields. by rewrite <- app_assoc.
Qed.

(** C5: [message_arrived] enqueues on the worker pool one delivery job for
    each record that the subscriber map holds under exactly the topic of the
    message, in the order of the records and after the jobs already queued,
    and nothing else: a record under another key, such as a filter with a
    wildcard, gets no job.  The job of a subscription hands it the payload of
    the message; when that is left by a [std::exception], the job hands the
    same subscription an error status instead.  Either way the job ends
    normally. *)
Theorem message_arrived_delivers msg st :
  let subscribers := TopicMap.equal_range (get_topic msg) (m_subscriberMap st) in
  let payload := get_payload_str msg in
  fst (message_arrived msg st) = Normal tt ∧
  pool (snd (message_arrived msg st)) = (pool st ++ map (job_for payload) subscribers)%list ∧
  ∀ s callback st1,
    match callback with
    | Normal _ =>
        run_job (job_for payload s) callback st1
        = (Normal tt, received_in s (Item payload) st1)
    | Raised e =>
        is_std_exception e = true →
        run_job (job_for payload s) callback st1
        = (Normal tt,
           received_in s
             (Failed {| errorMessage :=
                          {| fmt := "MQTT: Callback threw an exception on update: {}";
                             args := [ArgWhat e] |} |})
             st1)
    end.
Proof.
  intros subscribers payload. subst subscribers payload.
  unfold message_arrived, bind, logger, modify, get_state. fields.
  match goal with
  | |- context [for_each ?l ?f ?s] =>
      change (for_each l f s)
        with (for_each l (λ x, enqueue (job_for (get_payload_str msg) x)) s)
  end.
  rewrite for_each_enqueue. split; [done|]. split; [done|].
  intros s [[]|e] st1; unfold run_job, insertNewItem, insertError; run; [done|].
  by intros ->.
Qed.

Lemma message_arrived_delivers_witness :
  pool (snd (message_arrived {| get_topic := "speed"; get_payload_str := "42" |} two_topics))
  = [job_for "42" 0; job_for "42" 2] ∧
  run_job (job_for "42" 2) (Raised (StdException "bad payload")) two_topics
  = (Normal tt,
     received_in 2
       (Failed {| errorMessage :=
                    {| fmt := "MQTT: Callback threw an exception on update: {}";
                       args := [ArgWhat (StdException "bad payload")] |} |})
       two_topics).
Proof.
  pose proof (message_arrived_delivers
                {| get_topic := "speed"; get_payload_str := "42" |} two_topics)
    as (_ & Hpool & Hjob).
  split.
  - exact Hpool.
  - apply (Hjob 2 (Raised (StdException "bad payload")) two_topics). reflexivity.
Defined.

(** ** Connect options *)

(** C8: the connect options of a client are those that its constructor
    makes from its own arguments (none for the plain one, user name and
    password, the token as user name, or the TLS stores and key), whatever
    the broker URI and client identifier, and they stay so through every
    sequence of operations, returning or throwing: connect, reconnect,
    disconnect, the connection test, both publishes, subscribe, unsubscribe,
    the arrival of a message and the run of a delivery job. *)
Theorem connect_options_fixed_by_constructor c brokerUri clientId ops :
  m_connectOptions (perform_all ops (construct brokerUri clientId c)) =
  match c with
  | Plain =>
      {| user_name := None; password := None; ssl := None |}
  | Credentials username pwd =>
      {| user_name := Some username; password := Some pwd; ssl := None |}
  | Token tok =>
      {| user_name := Some tok; password := None; ssl := None |}
  | MutualTls trustStorePath keyStorePath privateKeyPath =>
      {| user_name := None; password := None;
         ssl := Some {| trust_store := trustStorePath; key_store := keyStorePath;
                        private_key := privateKeyPath; error_handler := true |} |}
  end.
Proof. rewrite options_perform_all. by destruct c. Qed.

(** ** Methods without a handler *)

Lemma may_throw_token_outcome answer e :
  may_throw answer e ↔ token_outcome answer = Raised e.
Proof.
  unfold may_throw, token_outcome. split.
  - intros [->|(tok & -> & Hw)]; done.
  - destruct answer as [tok|e']; intros H.
    + right. eauto.
    + left. by injection H as ->.
Qed.

Lemma methods_without_handler_outcome topic place answer st :
  fst (unsubscribeTopic topic answer st) = token_outcome answer ∧
  fst (subscribeTopic topic place answer st)
  = match token_outcome answer with
    | Normal _ => Normal (length (heap st))
    | Raised e => Raised e
    end.
Proof.
  unfold unsubscribeTopic, subscribeTopic, token_outcome. run.
  destruct answer as [tok|e]; [destruct (wait tok) as [[]|e]|]; done.
Qed.

(** X1: [connect], [disconnect], the untimed [publishOnTopic] and
    [unsubscribeTopic] have no handler: each returns normally exactly when
    its broker call and the wait on the token do, and otherwise is left by
    the very exception that the broker client threw. *)
Theorem methods_without_handler answer v topic data st :
  fst (connect v answer st) = token_outcome answer ∧
  fst (disconnect answer st) = token_outcome answer ∧
  fst (publishOnTopic topic data answer st) = token_outcome answer ∧
  fst (unsubscribeTopic topic answer st) = token_outcome answer.
Proof.
  unfold connect, disconnect, publishOnTopic, unsubscribeTopic, token_outcome.
  destruct v; run; (destruct answer as [tok|e]; [destruct (wait tok) as [[]|e]|]); done.
Qed.

(** X2: [connect], [disconnect], the untimed [publishOnTopic],
    [subscribeTopic] and [unsubscribeTopic] make their broker call exactly
    once, with the arguments they were given ([connect] with the client's
    connect options, [subscribeTopic] with quality of service 0), and wait on
    the token when there is one: there is no retry, also after an
    exception. *)
Theorem methods_call_once answer v topic place data st :
  calls_since st (snd (connect v answer st))
  = token_calls (c_connect (m_connectOptions st)) answer ∧
  calls_since st (snd (disconnect answer st)) = token_calls c_disconnect answer ∧
  calls_since st (snd (publishOnTopic topic data answer st))
  = token_calls (c_publish topic data) answer ∧
  calls_since st (snd (subscribeTopic topic place answer st))
  = token_calls (c_subscribe topic 0) answer ∧
  calls_since st (snd (unsubscribeTopic topic answer st))
  = token_calls (c_unsubscribe topic) answer.
Proof.
  unfold connect, disconnect, publishOnTopic, subscribeTopic, unsubscribeTopic, token_calls.
  destruct v; run; (destruct answer as [tok|e]; [destruct (wait tok) as [[]|e]|]); run;
    repeat split; apply calls_since_app; fields; by rewrite <- ?app_assoc.
Qed.

(** X3: the options sent to the broker by [connect] are those that the
    constructor made, whatever operations came between construction and the
    connect. *)
Theorem connect_sends_constructor_options c brokerUri clientId ops v answer :
  let st := perform_all ops (construct brokerUri clientId c) in
  calls_since st (snd (connect v answer st))
  = token_calls (c_connect (m_connectOptions (construct brokerUri clientId c))) answer.
Proof.
  intros st. subst st.
  rewrite <- (options_perform_all ops (construct brokerUri clientId c)).
  unfold connect, token_calls.
  destruct v; run; (destruct answer as [tok|e]; [destruct (wait tok) as [[]|e]|]); run;
    apply calls_since_app; fields; by rewrite <- ?app_assoc.
Qed.

(** X4: the environment variable [MQTT_BROKER_URI] is ignored by [connect]:
    set or not, the result, the calls on the broker client and the
    subscriptions are the same, and the only difference is one warning in the
    log. *)
Theorem connect_ignores_environment uri answer st :
  fst (connect (Some uri) answer st) = fst (connect None answer st) ∧
  calls (snd (connect (Some uri) answer st)) = calls (snd (connect None answer st)) ∧
  subscriptions (snd (connect (Some uri) answer st))
  = subscriptions (snd (connect None answer st)) ∧
  ∃ info,
    log_since st (snd (connect None answer st)) = [info] ∧
    log_since st (snd (connect (Some uri) answer st))
    = [info;
       {| lvl := L_warn;
          msg := {| fmt := "... ignoring deprecated environment variable MQTT_BROKER_URI -> "
                           ++ "consider to remove it";
                    args := [] |} |}].
Proof.
  unfold connect, subscriptions, log_since.
  run; (destruct answer as [tok|e]; [destruct (wait tok) as [[]|e]|]); run;
    (repeat split; try done; eexists; split;
     [ apply drop_app_length | rewrite <- app_assoc; apply drop_app_length ]).
Qed.

(** ** More on the timed publish and on [reconnect] *)

(** X5: a timed publish with a positive timeout attempts the publish exactly
    once, with the topic and the data it was given, whatever the result:
    there is no second attempt after a failure or a timeout.  Only when
    [std::async] cannot start the task is there no attempt. *)
Theorem publish_timed_attempts_once topic data timeout_ms w st :
  (0 < timeout_ms)%Z →
  filter is_publish (calls_since st (snd (publishOnTopic_timed topic data timeout_ms w st)))
  = match launch w with
    | Normal _ => [c_publish topic data]
    | Raised _ => []
    end.
Proof.
  intros Hpos.
  destruct (publish_timed_run topic data timeout_ms w st Hpos) as [_ ->].
  destruct (launch w); [|done].
  destruct (task_publish w) as [[?|]|?];
    by destruct (task_ready_within w _).
Qed.

Lemma publish_timed_attempts_once_witness :
  filter is_publish
    (calls_since client0 (snd (publishOnTopic_timed "speed" "42" 1000 publish_rejected client0)))
  = [c_publish "speed" "42"].
Proof. apply (publish_timed_attempts_once "speed" "42" 1000 publish_rejected client0). lia. Defined.

(** X6: when the broker client hands the task a null token, the task does
    not wait on it; the timed publish returns [Failure] when the task's
    result is ready within the bound. *)
Theorem publish_timed_null_token_fails topic data timeout_ms w st :
  (0 < timeout_ms)%Z →
  launch w = Normal tt →
  task_publish w = Normal None →
  task_ready_within w (Z.min timeout_ms MAX_TIMEOUT_MS) = true →
  fst (publishOnTopic_timed topic data timeout_ms w st) = Normal Failure ∧
  c_token_wait ∉ calls_since st (snd (publishOnTopic_timed topic data timeout_ms w st)).
Proof.
  intros Hpos Hl Hp Hr.
  destruct (publish_timed_run topic data timeout_ms w st Hpos) as [-> ->].
  unfold task_result. rewrite Hl, Hp, Hr. split; [done|].
  cbn. rewrite !not_elem_of_cons. repeat split; try done. apply not_elem_of_nil.
Qed.

Lemma publish_timed_null_token_fails_witness :
  fst (publishOnTopic_timed "speed" "42" 1000 null_token client0) = Normal Failure ∧
  c_token_wait ∉ calls_since client0 (snd (publishOnTopic_timed "speed" "42" 1000 null_token client0)).
Proof.
  apply (publish_timed_null_token_fails "speed" "42" 1000 null_token client0);
    [lia|reflexivity..].
Defined.

(** X7: above the cap the requested timeout makes no difference: two timed
    publishes, or two reconnects, with timeouts above 30000 ms return the
    same result and make the same calls. *)
Theorem timeouts_above_cap_agree t1 t2 topic data w answer st :
  (30000 < t1)%Z → (30000 < t2)%Z →
  fst (publishOnTopic_timed topic data t1 w st) = fst (publishOnTopic_timed topic data t2 w st) ∧
  calls_since st (snd (publishOnTopic_timed topic data t1 w st))
  = calls_since st (snd (publishOnTopic_timed topic data t2 w st)) ∧
  fst (reconnect t1 answer st) = fst (reconnect t2 answer st) ∧
  calls_since st (snd (reconnect t1 answer st))
  = calls_since st (snd (reconnect t2 answer st)).
Proof.
  intros H1 H2.
  assert (Hmin : ∀ t, (30000 < t)%Z → Z.min t MAX_TIMEOUT_MS = 30000%Z).
  { intros t Ht. unfold MAX_TIMEOUT_MS. lia. }
  destruct (publish_timed_run topic data t1 w st) as [Hr1 Hc1]; [lia|].
  destruct (publish_timed_run topic data t2 w st) as [Hr2 Hc2]; [lia|].
  destruct (reconnect_run t1 answer st) as [Hr3 Hc3]; [lia|].
  destruct (reconnect_run t2 answer st) as [Hr4 Hc4]; [lia|].
  rewrite Hmin in Hr1, Hc1, Hr2, Hc2, Hr3, Hc3, Hr4, Hc4 by done.
  repeat split; congruence.
Qed.

Lemma timeouts_above_cap_agree_witness :
  fst (publishOnTopic_timed "speed" "42" 31000 (publish_in 30500) client0)
  = fst (publishOnTopic_timed "speed" "42" 90000 (publish_in 30500) client0) ∧
  fst (reconnect 31000 (Normal (completes_after 30500)) client0)
  = fst (reconnect 90000 (Normal (completes_after 30500)) client0).
Proof.
  pose proof (timeouts_above_cap_agree 31000 90000 "speed" "42" (publish_in 30500)
                (Normal (completes_after 30500)) client0) as (H1 & _ & H2 & _); [lia|lia|].
  by split.
Defined.

(** X8: [reconnect] returns normally both when the broker reconnects in time
    and when the bound expires, so the caller cannot tell the two; only the
    last entry of the log does, and a timeout is reported with the bound that
    was used, not with the timeout that was requested. *)
Theorem reconnect_reports_in_log timeout_ms tok completed st :
  (0 < timeout_ms)%Z →
  wait_for tok (Z.min timeout_ms MAX_TIMEOUT_MS) = Normal completed →
  fst (reconnect timeout_ms (Normal tok) st) = Normal tt ∧
  last (log (snd (reconnect timeout_ms (Normal tok) st)))
  = Some (if completed then
            {| lvl := L_info;
               msg := {| fmt := "Successfully reconnected to MQTT broker."; args := [] |} |}
          else
            {| lvl := L_error;
               msg := {| fmt := "MQTT reconnect timed out after {} ms";
                         args := [ArgInt (Z.min timeout_ms MAX_TIMEOUT_MS)] |} |}).
Proof.
  intros Hpos.
  assert (Hbound : (if (timeout_ms >? MAX_TIMEOUT_MS)%Z then MAX_TIMEOUT_MS else timeout_ms)
                   = Z.min timeout_ms MAX_TIMEOUT_MS).
  { destruct (Z.gtb_spec timeout_ms MAX_TIMEOUT_MS); lia. }
  generalize dependent (Z.min timeout_ms MAX_TIMEOUT_MS). intros bound Hbound Hwait.
  unfold reconnect.
  destruct (Z.leb_spec timeout_ms 0) as [|_]; [lia|].
  destruct (timeout_ms >? MAX_TIMEOUT_MS)%Z; subst bound; run; rewrite Hwait;
    destruct completed; cbn [negb]; run; by rewrite last_snoc.
Qed.

Lemma reconnect_reports_in_log_witness :
  fst (reconnect 45000 (Normal (completes_after 40000)) client0) = Normal tt ∧
  last (log (snd (reconnect 45000 (Normal (completes_after 40000)) client0)))
  = Some {| lvl := L_error;
            msg := {| fmt := "MQTT reconnect timed out after {} ms";
                      args := [ArgInt 30000] |} |}.
Proof.
  apply (reconnect_reports_in_log 45000 (completes_after 40000) false client0);
    [lia|reflexivity].
Defined.

(** ** What the operations do to the subscriptions *)

Section Atoms.
Context {B : Type} (observe : state → B).
Hypothesis observe_calls : ∀ cs st, observe (set_calls cs st) = observe st.
Hypothesis observe_log : ∀ l st, observe (set_log l st) = observe st.

Lemma preserves_ask {A} c (answer : outcome A) : preserves observe (ask c answer).
Proof. intros st. apply observe_calls. Qed.

Lemma preserves_logger l f a : preserves observe (logger l f a).
Proof. intros st. apply observe_log. Qed.

Lemma preserves_std_async {A} l r (task : M A) :
  preserves observe task → preserves observe (std_async l r task).
Proof.
  intros Htask. apply preserves_bind; [apply preserves_ask|].
  intros _ st. specialize (Htask st). by destruct (task st).
Qed.
End Atoms.

(** Frames a computation made of broker calls and log entries. *)
Ltac frame_calls :=
  repeat first
    [ apply preserves_ret
    | apply preserves_throw
    | apply preserves_get_state
    | apply preserves_ask; by intros
    | apply preserves_logger; by intros
    | apply preserves_std_async; [by intros|]
    | apply preserves_bind; [|intros ?]
    | apply preserves_if
    | apply preserves_try_catch; [|repeat constructor; intros ?]
    | apply preserves_for_each; intros ?
    | apply preserves_modify; by intros ?
    | match goal with |- preserves _ (match ?x with _ => _ end) => destruct x end ].

Lemma subscriptions_connect v a : preserves subscriptions (connect v a).
Proof. unfold connect. frame_calls. Qed.

Lemma subscriptions_reconnect t a : preserves subscriptions (reconnect t a).
Proof. unfold reconnect, token_wait_for. frame_calls. Qed.

Lemma subscriptions_disconnect a : preserves subscriptions (disconnect a).
Proof. unfold disconnect, token_wait. frame_calls. Qed.

Lemma subscriptions_isConnected b : preserves subscriptions (isConnected b).
Proof. unfold isConnected. frame_calls. Qed.

Lemma subscriptions_publishOnTopic topic data a :
  preserves subscriptions (publishOnTopic topic data a).
Proof. unfold publishOnTopic, token_wait. frame_calls. Qed.

Lemma subscriptions_publishOnTopic_timed topic data t w :
  preserves subscriptions (publishOnTopic_timed topic data t w).
Proof.
  unfold publishOnTopic_timed, publish_task, future_wait_for, future_get, token_wait.
  frame_calls.
Qed.

Lemma map_message_arrived msg : preserves m_subscriberMap (message_arrived msg).
Proof. unfold message_arrived, enqueue. frame_calls. Qed.

Lemma map_worker_step cb : preserves m_subscriberMap (worker_step cb).
Proof. unfold worker_step, run_job, insertNewItem, insertError, receive. frame_calls. Qed.

(** X9: only [subscribeTopic] and [unsubscribeTopic] change the subscriber
    map: connecting, reconnecting, disconnecting, testing the connection,
    publishing (also when it fails or times out), the arrival of a message
    and the run of a delivery job all leave every record in place. *)
Theorem only_subscribe_and_unsubscribe_change_the_map op st :
  changes_subscriptions op = false →
  m_subscriberMap (perform op st) = m_subscriberMap st.
Proof.
  assert (Hmap : ∀ A (m : M A), preserves subscriptions m → preserves m_subscriberMap m).
  { intros A m Hm st'. specialize (Hm st'). unfold subscriptions in Hm. congruence. }
  destruct op; intros Hop; try discriminate Hop; unfold perform.
  - apply Hmap, subscriptions_connect.
  - apply Hmap, subscriptions_reconnect.
  - apply Hmap, subscriptions_disconnect.
  - apply Hmap, subscriptions_isConnected.
  - apply Hmap, subscriptions_publishOnTopic.
  - apply Hmap, subscriptions_publishOnTopic_timed.
  - apply map_message_arrived.
  - apply map_worker_step.
Qed.

Lemma only_subscribe_and_unsubscribe_change_the_map_witness :
  m_subscriberMap
    (perform (op_publish_timed "speed" "42" 1000 publish_rejected) two_topics)
  = m_subscriberMap two_topics.
Proof.
  apply (only_subscribe_and_unsubscribe_change_the_map
           (op_publish_timed "speed" "42" 1000 publish_rejected) two_topics).
  reflexivity.
Defined.

Lemma subscribeTopic_subscriptions topic place answer st :
  subscriptions (snd (subscribeTopic topic place answer st))
  = (TopicMap.insert topic (length (heap st)) place (m_subscriberMap st),
     (heap st ++ [[]])%list, pool st).
Proof.
  unfold subscribeTopic, subscriptions. run.
  destruct answer as [tok|e]; [destruct (wait tok) as [[]|e]|]; done.
Qed.

Lemma unsubscribeTopic_subscriptions topic answer st :
  subscriptions (snd (unsubscribeTopic topic answer st))
  = (match token_outcome answer with
     | Normal _ => TopicMap.erase_range topic (m_subscriberMap st)
     | Raised _ => m_subscriberMap st
     end, heap st, pool st).
Proof.
  unfold unsubscribeTopic, subscriptions, token_outcome. run.
  destruct answer as [tok|e]; [destruct (wait tok) as [[]|e]|]; done.
Qed.

Lemma message_arrived_subscriptions msg st :
  subscriptions (snd (message_arrived msg st))
  = (m_subscriberMap st, heap st,
     (pool st ++ map (job_for (get_payload_str msg))
                   (TopicMap.equal_range (get_topic msg) (m_subscriberMap st)))%list).
Proof.
  unfold message_arrived, bind, logger, modify, get_state, subscriptions. fields.
  by rewrite for_each_enqueue.
Qed.

Lemma has_record_erase topic other s (m : gmap string (list subscription_ptr)) :
  TopicMap.has_record other s (TopicMap.erase_range topic m) →
  TopicMap.has_record other s m.
Proof.
  unfold TopicMap.has_record. destruct (decide (topic = other)) as [<-|Hne].
  - rewrite equal_range_erase_eq. by intros ?%not_elem_of_nil.
  - by rewrite equal_range_erase_ne.
Qed.

(** [live_handles] depends on the subscriptions only. *)
Lemma live_handles_subscriptions st st' :
  subscriptions st' = subscriptions st → live_handles st → live_handles st'.
Proof.
  unfold subscriptions, live_handles. intros Heq.
  assert (Hm : m_subscriberMap st' = m_subscriberMap st) by congruence.
  assert (Hh : heap st' = heap st) by congruence.
  assert (Hp : pool st' = pool st) by congruence.
  by rewrite Hm, Hh, Hp.
Qed.

Lemma run_job_heap j callback st :
  m_subscriberMap (snd (run_job j callback st)) = m_subscriberMap st ∧
  pool (snd (run_job j callback st)) = pool st ∧
  length (heap (snd (run_job j callback st))) = length (heap st).
Proof.
  unfold run_job, insertNewItem, insertError, received_in.
  destruct callback as [[]|[]]; run; unfold received_in; fields;
    rewrite ?length_alter; done.
Qed.

Lemma live_handles_perform op st : live_handles st → live_handles (perform op st).
Proof.
  intros Hlive.
  destruct op as [v a|t a|a|b|topic data a|topic data t w|topic place answer|topic answer|m|callback];
    unfold perform.
  - eapply live_handles_subscriptions; [apply subscriptions_connect|done].
  - eapply live_handles_subscriptions; [apply subscriptions_reconnect|done].
  - eapply live_handles_subscriptions; [apply subscriptions_disconnect|done].
  - eapply live_handles_subscriptions; [apply subscriptions_isConnected|done].
  - eapply live_handles_subscriptions; [apply subscriptions_publishOnTopic|done].
  - eapply live_handles_subscriptions; [apply subscriptions_publishOnTopic_timed|done].
  - pose proof (subscribeTopic_subscriptions topic place answer st) as [= Hm Hh Hp].
    destruct Hlive as [Hmap Hpool]. unfold live_handles. rewrite Hm, Hh, Hp.
    rewrite length_app. simpl. split.
    + intros t s [Hold|[_ ->]]%has_record_insert; [|lia].
      specialize (Hmap t s Hold). lia.
    + intros j Hj. specialize (Hpool j Hj). lia.
  - pose proof (unsubscribeTopic_subscriptions topic answer st) as [= Hm Hh Hp].
    destruct Hlive as [Hmap Hpool]. unfold live_handles. rewrite Hm, Hh, Hp.
    split; [|done]. intros t s Hrec. apply (Hmap t).
    destruct (token_outcome answer); [by eapply has_record_erase|done].
  - pose proof (message_arrived_subscriptions m st) as [= Hm Hh Hp].
    destruct Hlive as [Hmap Hpool]. unfold live_handles. rewrite Hm, Hh, Hp.
    split; [done|]. intros j [Hj|Hj]%elem_of_app; [by apply Hpool|].
    apply list_elem_of_fmap in Hj as (s & -> & Hs). by apply (Hmap (get_topic m)).
  - destruct Hlive as [Hmap Hpool]. unfold worker_step, bind, get_state.
    destruct (pool st) as [|j rest] eqn:Hq.
    { simpl. split; [done|]. by rewrite Hq. }
    unfold modify.
    destruct (run_job_heap j callback (set_pool rest st)) as (Hm & Hp & Hh).
    unfold live_handles. rewrite Hm, Hp, Hh. fields. split; [done|].
    intros j' Hj'. apply Hpool. by apply list_elem_of_further.
Qed.

Lemma live_handles_perform_all ops st :
  live_handles st → live_handles (perform_all ops st).
Proof.
  revert st. induction ops as [|op ops IH]; intros st Hlive; [done|].
  apply (IH (perform op st)). by apply live_handles_perform.
Qed.

Lemma live_handles_construct brokerUri clientId c :
  live_handles (construct brokerUri clientId c).
Proof.
  split.
  - intros topic s. unfold TopicMap.has_record, TopicMap.equal_range.
    destruct c; simpl; rewrite lookup_empty; by intros ?%not_elem_of_nil.
  - intros j. destruct c; simpl; by intros ?%not_elem_of_nil.
Qed.

Lemma reachable_live brokerUri clientId c ops :
  live_handles (perform_all ops (construct brokerUri clientId c)).
Proof. apply live_handles_perform_all, live_handles_construct. Qed.

(** X10: in every state that a constructed client can reach, each pointer
    held by the subscriber map and each pointer captured by a queued
    delivery job is the address of a subscription handle: no record and no
    job refers to a handle that was never made. *)
Theorem reachable_states_have_live_handles brokerUri clientId c ops :
  let st := perform_all ops (construct brokerUri clientId c) in
  (∀ topic s, TopicMap.has_record topic s (m_subscriberMap st) → is_Some (heap st !! s)) ∧
  (∀ j, j ∈ pool st → is_Some (heap st !! job_subscription j)).
Proof.
  intros st. destruct (reachable_live brokerUri clientId c ops) as [Hmap Hpool].
  split.
  - intros topic s Hrec. apply lookup_lt_is_Some_2. by apply (Hmap topic).
  - intros j Hj. apply lookup_lt_is_Some_2. by apply Hpool.
Qed.

(** X11: [unsubscribeTopic] erases after the broker-level unsubscribe has
    been acknowledged: when that call or the wait on its token throws, no
    record is removed, no handle and no queued job is touched, and the topic
    keeps its subscribers. *)
Theorem unsubscribeTopic_failure_keeps_records topic answer e st :
  may_throw answer e →
  fst (unsubscribeTopic topic answer st) = Raised e ∧
  subscriptions (snd (unsubscribeTopic topic answer st)) = subscriptions st.
Proof.
  intros Hthrow%may_throw_token_outcome. split.
  - rewrite <- Hthrow. unfold unsubscribeTopic, token_outcome. run.
    destruct answer as [tok|e']; [destruct (wait tok) as [[]|e']|]; done.
  - rewrite unsubscribeTopic_subscriptions. by rewrite Hthrow.
Qed.

Lemma unsubscribeTopic_failure_keeps_records_witness :
  fst (unsubscribeTopic "speed" broker_refuses two_topics) = Raised (MqttException (-3)) ∧
  subscriptions (snd (unsubscribeTopic "speed" broker_refuses two_topics))
  = subscriptions two_topics.
Proof.
  apply (unsubscribeTopic_failure_keeps_records "speed" broker_refuses
           (MqttException (-3)) two_topics).
  by left.
Defined.

(** X12: [unsubscribeTopic] removes every subscription of the topic, not
    only the caller's: after a subscribe and an acknowledged unsubscribe of
    one topic the topic has no record left, whatever it had before, the other
    topics are as they were, and when the topic had no record before, the
    subscriber map is back to what it was. *)
Theorem subscribe_unsubscribe_round_trip topic place a1 a2 st :
  token_outcome a2 = Normal tt →
  let st2 := snd (unsubscribeTopic topic a2 (snd (subscribeTopic topic place a1 st))) in
  TopicMap.equal_range topic (m_subscriberMap st2) = [] ∧
  (∀ other, other ≠ topic →
     TopicMap.equal_range other (m_subscriberMap st2)
     = TopicMap.equal_range other (m_subscriberMap st)) ∧
  (m_subscriberMap st !! topic = None → m_subscriberMap st2 = m_subscriberMap st).
Proof.
  intros Hok st2. subst st2.
  pose proof (unsubscribeTopic_subscriptions topic a2 (snd (subscribeTopic topic place a1 st)))
    as Hunsub.
  pose proof (subscribeTopic_subscriptions topic place a1 st) as Hsub.
  unfold subscriptions in Hunsub, Hsub. rewrite Hok in Hunsub.
  injection Hunsub as Hm2 _ _. injection Hsub as Hm1 _ _.
  rewrite Hm2, Hm1. split; [|split].
  - apply equal_range_erase_eq.
  - intros other Hne.
    rewrite equal_range_erase_ne by done. by rewrite equal_range_insert_ne.
  - intros Hnone. unfold TopicMap.erase_range, TopicMap.insert.
    rewrite delete_insert_eq. by apply delete_id.
Qed.

Lemma subscribe_unsubscribe_round_trip_witness :
  TopicMap.equal_range "speed" (m_subscriberMap two_topics) = [0; 2] ∧
  TopicMap.equal_range "speed"
    (m_subscriberMap
       (snd (unsubscribeTopic "speed" (Normal broker_ok)
               (snd (subscribeTopic "speed" 1 (Normal broker_ok) two_topics))))) = [].
Proof.
  split; [reflexivity|].
  apply (subscribe_unsubscribe_round_trip "speed" 1 (Normal broker_ok) (Normal broker_ok)
           two_topics).
  reflexivity.
Defined.

(** X13: once [unsubscribeTopic] has returned, a message that arrives on the
    topic enqueues no delivery job; the jobs that were queued before stay
    queued. *)
Theorem no_delivery_after_unsubscribe topic answer msg st st' :
  unsubscribeTopic topic answer st = (Normal tt, st') →
  get_topic msg = topic →
  pool (snd (message_arrived msg st')) = pool st.
Proof.
  intros Hrun Htopic.
  pose proof (unsubscribeTopic_subscriptions topic answer st) as Hunsub.
  assert (Hok : token_outcome answer = Normal tt).
  { destruct (methods_without_handler_outcome topic 0 answer st) as [<- _].
    by rewrite Hrun. }
  rewrite Hrun, Hok in Hunsub. unfold subscriptions in Hunsub. simpl in Hunsub.
  injection Hunsub as Hm _ Hp.
  pose proof (message_arrived_subscriptions msg st') as Harr.
  unfold subscriptions in Harr. injection Harr as _ _ ->.
  rewrite Hm, Hp, Htopic, equal_range_erase_eq. simpl. by rewrite app_nil_r.
Qed.

Lemma no_delivery_after_unsubscribe_witness :
  pool (snd (message_arrived {| get_topic := "speed"; get_payload_str := "42" |}
               (snd (unsubscribeTopic "speed" (Normal broker_ok) two_topics))))
  = pool two_topics.
Proof.
  apply (no_delivery_after_unsubscribe "speed" (Normal broker_ok)
           {| get_topic := "speed"; get_payload_str := "42" |} two_topics);
    reflexivity.
Defined.

(** X14: in every state that a constructed client can reach, the pointer
    that [subscribeTopic] makes is held by no record yet, and a message that
    arrives on the topic afterwards enqueues, after the jobs already queued,
    one job for each earlier subscriber of the topic and exactly one job for
    the new subscription, in the order in which the container holds the
    records, also when the broker-level subscribe has thrown. *)
Theorem new_subscriber_gets_one_job brokerUri clientId c ops topic place answer payload :
  let st := perform_all ops (construct brokerUri clientId c) in
  let s := length (heap st) in
  let earlier := TopicMap.equal_range topic (m_subscriberMap st) in
  (∀ other, ¬ TopicMap.has_record other s (m_subscriberMap st)) ∧
  (token_outcome answer = Normal tt → fst (subscribeTopic topic place answer st) = Normal s) ∧
  ∃ jobs,
    pool (snd (message_arrived {| get_topic := topic; get_payload_str := payload |}
                 (snd (subscribeTopic topic place answer st))))
    = (pool st ++ jobs)%list ∧
    jobs ≡ₚ map (job_for payload) (earlier ++ [s]).
Proof.
  intros st s earlier. subst s earlier.
  pose proof (reachable_live brokerUri clientId c ops) as [Hmap _]. fold st in Hmap.
  split; [|split].
  - intros other Hrec. specialize (Hmap other _ Hrec). lia.
  - intros Hok. destruct (methods_without_handler_outcome topic place answer st) as [_ ->].
    by rewrite Hok.
  - pose proof (message_arrived_subscriptions
                  {| get_topic := topic; get_payload_str := payload |}
                  (snd (subscribeTopic topic place answer st))) as Harr.
    pose proof (subscribeTopic_subscriptions topic place answer st) as Hsub.
    unfold subscriptions in Harr, Hsub. injection Harr as _ _ ->.
    injection Hsub as -> _ ->. simpl.
    eexists. split; [done|]. by rewrite equal_range_insert_perm.
Qed.

Lemma heap_lookup_received s n st received :
  heap st !! s = Some received →
  heap (received_in s n st) !! s = Some (received ++ [n])%list ∧
  ∀ s', s' ≠ s → heap (received_in s n st) !! s' = heap st !! s'.
Proof.
  intros Hs. unfold received_in. fields. unfold subscription_ptr in *. split.
  - by rewrite list_lookup_alter_eq, Hs.
  - intros s' Hne. by rewrite list_lookup_alter_ne.
Qed.

Lemma run_job_received j callback n st :
  job_notification (job_payload j) callback = Some n →
  run_job j callback st = (Normal tt, received_in (job_subscription j) n st).
Proof.
  unfold job_notification, run_job, insertNewItem, insertError.
  destruct callback as [[]|e]; run.
  - by intros [= <-].
  - destruct (is_std_exception e); [|done]. by intros [= <-].
Qed.

(** X15: in every state that a constructed client can reach, a queued
    delivery job finds its handle: run with a callback that returns, or that
    throws a [std::exception], the job ends normally and appends the payload,
    or the error, to what that handle had received, and leaves every other
    handle as it was. *)
Theorem queued_job_reaches_its_handle brokerUri clientId c ops j callback n :
  let st := perform_all ops (construct brokerUri clientId c) in
  j ∈ pool st →
  job_notification (job_payload j) callback = Some n →
  ∃ received,
    heap st !! job_subscription j = Some received ∧
    fst (run_job j callback st) = Normal tt ∧
    heap (snd (run_job j callback st)) !! job_subscription j = Some (received ++ [n])%list ∧
    ∀ s, s ≠ job_subscription j → heap (snd (run_job j callback st)) !! s = heap st !! s.
Proof.
  intros st Hj Hn.
  pose proof (reachable_live brokerUri clientId c ops) as [_ Hpool]. fold st in Hpool.
  destruct (lookup_lt_is_Some_2 (heap st) (job_subscription j) (Hpool j Hj))
    as [received Hrec].
  exists received. rewrite (run_job_received j callback n st Hn). simpl.
  destruct (heap_lookup_received (job_subscription j) n st received Hrec) as [Hs Hother].
  done.
Qed.

Lemma queued_job_reaches_its_handle_witness :
  let st := perform_all
              [op_subscribe "speed" 1 (Normal broker_ok);
               op_message_arrived {| get_topic := "speed"; get_payload_str := "42" |}]
              (construct "tcp://localhost:1883" "app" Plain) in
  ∃ received,
    heap st !! 0 = Some received ∧
    fst (run_job (job_for "42" 0) (Normal tt) st) = Normal tt ∧
    heap (snd (run_job (job_for "42" 0) (Normal tt) st)) !! 0
    = Some (received ++ [Item "42"])%list ∧
    ∀ s, s ≠ 0 → heap (snd (run_job (job_for "42" 0) (Normal tt) st)) !! s = heap st !! s.
Proof.
  apply (queued_job_reaches_its_handle "tcp://localhost:1883" "app" Plain
           [op_subscribe "speed" 1 (Normal broker_ok);
            op_message_arrived {| get_topic := "speed"; get_payload_str := "42" |}]
           (job_for "42" 0) (Normal tt) (Item "42")).
  - vm_compute. apply list_elem_of_here.
  - reflexivity.
Defined.

Lemma heap_subscriptions st st' :
  subscriptions st' = subscriptions st → heap st' = heap st.
Proof. unfold subscriptions. congruence. Qed.

Lemma heap_length_perform op st :
  (length (heap st) ≤ length (heap (perform op st)))%nat.
Proof.
  destruct op as [v a|t a|a|b|topic data a|topic data t w|topic place answer|topic answer|m|callback];
    unfold perform.
  - by rewrite (heap_subscriptions _ _ (subscriptions_connect v a st)).
  - by rewrite (heap_subscriptions _ _ (subscriptions_reconnect t a st)).
  - by rewrite (heap_subscriptions _ _ (subscriptions_disconnect a st)).
  - by rewrite (heap_subscriptions _ _ (subscriptions_isConnected b st)).
  - by rewrite (heap_subscriptions _ _ (subscriptions_publishOnTopic topic data a st)).
  - by rewrite (heap_subscriptions _ _ (subscriptions_publishOnTopic_timed topic data t w st)).
  - pose proof (subscribeTopic_subscriptions topic place answer st) as [= _ -> _].
    rewrite length_app. lia.
  - by pose proof (unsubscribeTopic_subscriptions topic answer st) as [= _ -> _].
  - by pose proof (message_arrived_subscriptions m st) as [= _ -> _].
  - unfold worker_step, bind, get_state.
    destruct (pool st) as [|j rest]; [done|]. unfold modify.
    destruct (run_job_heap j callback (set_pool rest st)) as (_ & _ & ->). by fields.
Qed.

Lemma heap_length_perform_all ops st :
  (length (heap st) ≤ length (heap (perform_all ops st)))%nat.
Proof.
  revert st. induction ops as [|op ops IH]; intros st; [done|].
  etrans; [apply (heap_length_perform op)|apply (IH (perform op st))].
Qed.

(** X16: two subscriptions never share a handle, also on one topic: the
    pointer that a later [subscribeTopic] returns differs from the one an
    earlier call returned, whatever operations came between, and the handle
    at it has received nothing yet. *)
Theorem later_subscription_gets_new_handle topic1 place1 a1 topic2 place2 a2 ops st s1 s2 :
  let st1 := snd (subscribeTopic topic1 place1 a1 st) in
  let r2 := subscribeTopic topic2 place2 a2 (perform_all ops st1) in
  fst (subscribeTopic topic1 place1 a1 st) = Normal s1 →
  fst r2 = Normal s2 →
  s1 ≠ s2 ∧ heap (snd r2) !! s2 = Some [].
Proof.
  intros st1 r2 H1 H2. subst r2.
  destruct (methods_without_handler_outcome topic1 place1 a1 st) as [_ Hs1].
  destruct (methods_without_handler_outcome topic2 place2 a2 (perform_all ops st1)) as [_ Hs2].
  rewrite H1 in Hs1. rewrite H2 in Hs2.
  destruct (token_outcome a1); [|done]. destruct (token_outcome a2); [|done].
  injection Hs1 as ->. injection Hs2 as ->.
  pose proof (heap_length_perform_all ops st1) as Hgrow.
  pose proof (subscribeTopic_subscriptions topic1 place1 a1 st) as [= _ Hh1 _]. fold st1 in Hh1.
  pose proof (subscribeTopic_subscriptions topic2 place2 a2 (perform_all ops st1)) as [= _ Hh2 _].
  rewrite Hh1, length_app in Hgrow. simpl in Hgrow. split; [lia|].
  rewrite Hh2. unfold subscription_ptr. by rewrite lookup_app_r, Nat.sub_diag.
Qed.

Lemma later_subscription_gets_new_handle_witness :
  0 ≠ 3 ∧
  heap (snd (subscribeTopic "speed" 1 (Normal broker_ok)
               (perform_all
                  [op_subscribe "doors" 1 (Normal broker_ok);
                   op_subscribe "speed" 1 (Normal broker_ok)]
                  (snd (subscribeTopic "speed" 1 (Normal broker_ok) client0))))) !! 3
  = Some [].
Proof.
  apply (later_subscription_gets_new_handle "speed" 1 (Normal broker_ok)
           "speed" 1 (Normal broker_ok)
           [op_subscribe "doors" 1 (Normal broker_ok); op_subscribe "speed" 1 (Normal broker_ok)]
           client0 0 3); reflexivity.
Defined.

Lemma reachable_states_have_live_handles_witness :
  is_Some (heap two_topics !! 2).
Proof.
  apply (proj1 (reachable_states_have_live_handles "tcp://localhost:1883" "app" Plain
                  [op_subscribe "speed" 1 (Normal broker_ok);
                   op_subscribe "doors" 1 (Normal broker_ok);
                   op_subscribe "speed" 1 (Normal broker_ok)]) "speed" 2).
  vm_compute. apply list_elem_of_further, list_elem_of_here.
Defined.

Lemma new_subscriber_gets_one_job_witness :
  fst (subscribeTopic "speed" 1 (Normal broker_ok) two_topics) = Normal 3 ∧
  ∃ jobs,
    pool (snd (message_arrived {| get_topic := "speed"; get_payload_str := "42" |}
                 (snd (subscribeTopic "speed" 1 (Normal broker_ok) two_topics))))
    = (pool two_topics ++ jobs)%list ∧
    jobs ≡ₚ map (job_for "42") ([0; 2] ++ [3]).
Proof.
  pose proof (new_subscriber_gets_one_job "tcp://localhost:1883" "app" Plain
                [op_subscribe "speed" 1 (Normal broker_ok);
                 op_subscribe "doors" 1 (Normal broker_ok);
                 op_subscribe "speed" 1 (Normal broker_ok)]
                "speed" 1 (Normal broker_ok) "42") as (_ & Hret & Hpool).
  split.
  - apply Hret. reflexivity.
  - exact Hpool.
Defined.

(** X17: the status of a timed publish tells what happened.  [Success] is
    returned only when the task was started, the broker client handed out a
    token, the wait on it returned, and all that within the bound;
    [Failure] only when [std::async] threw or the task was left by an
    exception within the bound; [Timeout] only when the timeout was not
    positive or the task's result was not ready within the bound. *)
Theorem publish_timed_status_meaning topic data timeout_ms w st :
  let r := fst (publishOnTopic_timed topic data timeout_ms w st) in
  let bound := Z.min timeout_ms MAX_TIMEOUT_MS in
  (r = Normal Success →
   (0 < timeout_ms)%Z ∧ launch w = Normal tt ∧ task_ready_within w bound = true ∧
   ∃ tok, task_publish w = Normal (Some tok) ∧ wait tok = Normal tt) ∧
  (r = Normal Failure →
   (0 < timeout_ms)%Z ∧
   ((∃ e, launch w = Raised e) ∨
    (task_ready_within w bound = true ∧ ∃ e, task_result w = Raised e))) ∧
  (r = Normal Timeout →
   (timeout_ms ≤ 0)%Z ∨ (launch w = Normal tt ∧ task_ready_within w bound = false)).
Proof.
  intros r bound. subst r.
  destruct (Z.le_gt_cases timeout_ms 0) as [Hle|Hpos].
  { rewrite publish_timed_nonpositive_run by done. simpl.
    split; [done|]. split; [done|]. by left. }
  destruct (publish_timed_run topic data timeout_ms w st Hpos) as [-> _].
  fold bound. unfold publish_handled, task_result.
  destruct (launch w) as [[]|e].
  - destruct (task_ready_within w bound).
    + destruct (task_publish w) as [[tok|]|e]; [destruct (wait tok) as [[]|e] eqn:Hw| |];
        try destruct (is_std_exception e); simpl;
        (split; [|split]); try done; intros _; try (split; [lia|]); eauto 8.
    + split; [done|]. split; [done|]. intros _. by right.
  - destruct (is_std_exception e); (split; [|split]); try done.
    intros _. split; [lia|]. left. eauto.
Qed.

Lemma publish_timed_status_meaning_witness :
  (0 < 1000)%Z ∧
  ((∃ e, launch publish_rejected = Raised e) ∨
   (task_ready_within publish_rejected (Z.min 1000 MAX_TIMEOUT_MS) = true ∧
    ∃ e, task_result publish_rejected = Raised e)).
Proof.
  apply (proj1 (proj2 (publish_timed_status_meaning "speed" "42" 1000 publish_rejected client0))).
  reflexivity.
Defined.

(** X18: [message_arrived] itself delivers nothing: it returns normally,
    gives no handle anything, makes no call on the broker client and leaves
    the subscriber map alone; on a topic without a record it enqueues no
    job. *)
Theorem message_arrived_defers_delivery msg st :
  fst (message_arrived msg st) = Normal tt ∧
  heap (snd (message_arrived msg st)) = heap st ∧
  m_subscriberMap (snd (message_arrived msg st)) = m_subscriberMap st ∧
  calls (snd (message_arrived msg st)) = calls st ∧
  (m_subscriberMap st !! get_topic msg = None →
   pool (snd (message_arrived msg st)) = pool st).
Proof.
  pose proof (message_arrived_subscriptions msg st) as [= Hm Hh Hp].
  split; [|split; [done|split; [done|split]]].
  - unfold message_arrived, bind, logger, modify, get_state. fields.
    by rewrite for_each_enqueue.
  - unfold message_arrived, bind, logger, modify, get_state. fields.
    by rewrite for_each_enqueue.
  - intros Hnone. rewrite Hp. unfold TopicMap.equal_range. rewrite Hnone. simpl.
    by rewrite app_nil_r.
Qed.

Lemma message_arrived_defers_delivery_witness :
  pool (snd (message_arrived {| get_topic := "lights"; get_payload_str := "on" |} two_topics))
  = pool two_topics.
Proof.
  apply (message_arrived_defers_delivery
           {| get_topic := "lights"; get_payload_str := "on" |} two_topics).
  reflexivity.
Defined.
